(** * Bus boarding sequence generator: a shallow embedding of
    [boarding_sequence.py] and the properties of its specification.

    Modelling conventions.
    - A Python [str] is a [list ascii]. The model covers ASCII text: on the
      characters of code 0..127 the character classes below ([isspace],
      [isdigit], [upper_char], the class [A-Z]) are those of Python 3; the
      characters of code 128..255 are kept as opaque non-space, non-digit,
      caseless characters.
    - A Python [int] is a [Z]. The interpreter's limit on the number of
      digits [int()] and [str()] convert is modelled at its default,
      4300 digits ([Str.int_max_str_digits]).
    - A raised exception is the left summand of [result]; the constructors
      of [exn] are the [ValueError]s of the program and of the built-ins it
      calls, one constructor per cause.
    - A booking dictionary is a record; the optional key ['sequence'] is an
      [option]. Dictionaries are mutable objects: the sequencer works on a
      store of objects addressed by locations, and a Python list of bookings
      is a list of locations (so that one object can occur twice).
    - [sorted] is modelled by a stable insertion sort that, like Python's
      sort, only ever asks whether one key is strictly less than another.
    - The reports read the key ['sequence'] of a booking, which raises
      [KeyError] when the key is absent ([key_error]); they print integers
      in decimal ([str_int], which raises on more than 4300 digits).
    - Files and the standard output are an environment [Env]: what opening
      a path for reading gives (the text, or an exception), whether writing
      a text to a path succeeds, and whether a call of [print] succeeds (a
      print is taken as a whole: it has written its line, or it has raised
      and written nothing). Reading a file of more lines than a list can
      hold ([sys_maxsize]) raises [MemoryError]. What [main]
      has printed is a list of [printed], one constructor per call of
      [print] with the values it formats; [main] returns that list, the
      exit status and the file it has written, if any. An exception that
      nothing catches ends the program with status 1. *)

From stdpp Require Import gmap list sorting strings.
From Stdlib Require Import Ascii ZArith.

Local Open Scope Z_scope.

(** ** Exceptions *)

Inductive exn : Type :=
  | ValueError_invalid_seat (seat : list ascii)
      (* raise ValueError(f"Invalid seat format: {seat}") *)
  | ValueError_invalid_literal (s : list ascii)
      (* int(s): invalid literal for int() with base 10 *)
  | ValueError_max_empty
      (* max(): iterable argument is empty *)
  | ValueError_max_str_digits (digits : nat)
      (* int(s): Exceeds the limit (4300 digits) for integer string
         conversion: value has [digits] digits *)
  | ValueError_str_max_digits.
      (* str(n), format(n, spec): Exceeds the limit (4300 digits) for
         integer string conversion *)

Definition result (A : Type) : Type := exn + A.

Definition ret {A} (x : A) : result A := inr x.
Definition raise {A} (e : exn) : result A := inl e.

Definition bind {E A B} (m : E + A) (k : A → E + B) : E + B :=
  match m with
  | inl e => inl e
  | inr x => k x
  end.

Notation "'let*' x ':=' m 'in' k" := (bind m (λ x, k))
  (at level 10, x name, m at level 100, k at level 200, only parsing).

Definition raises {A} (m : result A) : Prop := ∃ e, m = inl e.

(** ** Strings *)

Module Str.

Definition code (c : ascii) : nat := nat_of_ascii c.

(** [str.isspace] on ASCII: TAB, LF, VT, FF, CR, FS, GS, RS, US, SPACE. *)
Definition isspace (c : ascii) : bool :=
  ((9 <=? code c) && (code c <=? 13) || (28 <=? code c) && (code c <=? 32))%nat.

(** The class [\d] on ASCII. *)
Definition isdigit (c : ascii) : bool :=
  ((48 <=? code c) && (code c <=? 57))%nat.

(** The class [[A-Z]]. *)
Definition is_AZ (c : ascii) : bool :=
  ((65 <=? code c) && (code c <=? 90))%nat.

Definition is_az (c : ascii) : bool :=
  ((97 <=? code c) && (code c <=? 122))%nat.

Definition upper_char (c : ascii) : ascii :=
  if is_az c then ascii_of_nat (code c - 32) else c.

(** [s.upper()] *)
Definition upper (s : list ascii) : list ascii := upper_char <$> s.

Fixpoint lstrip (s : list ascii) : list ascii :=
  match s with
  | [] => []
  | c :: s' => if isspace c then lstrip s' else s
  end.

Definition rstrip (s : list ascii) : list ascii :=
  reverse (lstrip (reverse s)).

(** [s.strip()] *)
Definition strip (s : list ascii) : list ascii := rstrip (lstrip s).

(** [s.split(sep)] for a one-character separator: never the empty list. *)
Fixpoint split (sep : ascii) (s : list ascii) : list (list ascii) :=
  match s with
  | [] => [[]]
  | c :: s' =>
      if Ascii.eqb c sep then [] :: split sep s'
      else match split sep s' with
           | [] => [[c]]
           | w :: ws => (c :: w) :: ws
           end
  end.

Definition digit_val (c : ascii) : Z := Z.of_nat (code c - 48).

(** The value of a run of decimal digits, most significant first. *)
Definition digits_value (ds : list ascii) : Z :=
  foldl (λ acc c, 10 * acc + digit_val c) 0 ds.

(** The body of an integer literal as [int()] reads it: decimal digits,
    with single underscores allowed between two digits. [prev] tells
    whether the previous character was a digit. *)
Fixpoint int_body (acc : Z) (prev : bool) (s : list ascii) : option Z :=
  match s with
  | [] => if prev then Some acc else None
  | c :: s' =>
      if isdigit c then int_body (10 * acc + digit_val c) true s'
      else if Ascii.eqb c "_"%char && prev then int_body acc false s'
      else None
  end.

(** The whitespace [int()] skips around an ASCII literal (the C class
    [Py_ISSPACE]: TAB, LF, VT, FF, CR, SPACE). *)
Definition isspace_c (c : ascii) : bool :=
  ((9 <=? code c) && (code c <=? 13) || (code c =? 32))%nat.

Fixpoint lstrip_c (s : list ascii) : list ascii :=
  match s with
  | [] => []
  | c :: s' => if isspace_c c then lstrip_c s' else s
  end.

(** The longest prefix of digits and underscores, and what follows it:
    what [int()] scans before it looks at the number of digits. *)
Fixpoint span_literal (s : list ascii) : list ascii * list ascii :=
  match s with
  | [] => ([], [])
  | c :: s' =>
      if isdigit c || Ascii.eqb c "_"%char
      then let '(run, r) := span_literal s' in (c :: run, r)
      else ([], s)
  end.

(** [sys.get_int_max_str_digits()], at its default. *)
Definition int_max_str_digits : nat := 4300.

(** The number of digits of a literal: underscores and the sign do not
    count. *)
Definition count_digits (s : list ascii) : nat := length (filter isdigit s).

(** [int(s)] in base 10, in the order of the interpreter: leading
    whitespace and an optional sign are skipped; the run of digits and
    underscores that follows is scanned, and refused when it is empty or
    has an underscore that is not between two digits; a run of more digits
    than the limit is refused next; only whitespace may follow the run. *)
Definition int (s : list ascii) : result Z :=
  let t := lstrip_c s in
  let '(neg, t) :=
    match t with
    | c :: t' =>
        if Ascii.eqb c "-"%char then (true, t')
        else if Ascii.eqb c "+"%char then (false, t')
        else (false, t)
    | [] => (false, t)
    end in
  let '(run, rest) := span_literal t in
  match int_body 0 false run with
  | None => raise (ValueError_invalid_literal s)
  | Some n =>
      if (int_max_str_digits <? count_digits run)%nat
      then raise (ValueError_max_str_digits (count_digits run))
      else
        match lstrip_c rest with
        | [] => ret (if neg : bool then - n else n)
        | _ :: _ => raise (ValueError_invalid_literal s)
        end
  end.

(** The longest prefix of digits, and what follows it. *)
Fixpoint span_digits (s : list ascii) : list ascii * list ascii :=
  match s with
  | [] => ([], [])
  | c :: s' =>
      if isdigit c then let '(ds, r) := span_digits s' in (c :: ds, r)
      else ([], s)
  end.

(** [re.match(r'([A-Z])(\d+)', s)]: the pattern is matched at the start of
    [s] and need not reach its end; [\d+] is greedy. The result holds
    groups 1 and 2. *)
Definition re_match_seat (s : list ascii) : option (ascii * list ascii) :=
  match s with
  | [] => None
  | c :: s' =>
      if is_AZ c then
        match span_digits s' with
        | ([], _) => None
        | (ds, _) => Some (c, ds)
        end
      else None
  end.

Definition of_string (s : string) : list ascii := String.list_ascii_of_string s.

End Str.

Notation "'str:' s" := (Str.of_string s) (at level 1, s at level 0, format "'str:' s").

(** ** Seats and distances *)

(** [BusBoarding.parse_seat] *)
Definition parse_seat (seat : list ascii) : result (ascii * Z) :=
  let seat := Str.upper (Str.strip seat) in
  match Str.re_match_seat seat with
  | Some (row_letter, digits) =>
      let* seat_number := Str.int digits in
      ret (row_letter, seat_number)
  | None => raise (ValueError_invalid_seat seat)
  end.

(** [BusBoarding.get_seat_distance] *)
Definition get_seat_distance (seat : list ascii) : result Z :=
  let* p := parse_seat seat in
  ret (snd p).

(** The loop of [max] over the generator of distances: [cur] is the largest
    item seen so far, replaced only by a strictly larger one; a seat that
    does not parse stops the iteration with its exception. *)
Fixpoint max_loop (cur : Z) (seats : list (list ascii)) : result Z :=
  match seats with
  | [] => ret cur
  | seat :: rest =>
      let* d := get_seat_distance seat in
      max_loop (if cur <? d then d else cur) rest
  end.

(** [BusBoarding.get_booking_max_distance] *)
Definition get_booking_max_distance (seats : list (list ascii)) : result Z :=
  match seats with
  | [] => raise ValueError_max_empty
  | seat :: rest =>
      let* d := get_seat_distance seat in
      max_loop d rest
  end.

(** ** Bookings *)

Record Booking : Type := mkBooking {
  booking_id : Z;
  seats : list (list ascii);
  max_distance : Z;
  sequence : option Z
}.

(** ** Record ingestion *)

Definition LF : ascii := "010"%char.

(** [file.readlines()] on the text of the file (newlines already
    translated to LF, as text mode does): the lines, each with its
    terminator; the last one may have none. *)
Fixpoint readlines (text : list ascii) : list (list ascii) :=
  match text with
  | [] => []
  | c :: text' =>
      if Ascii.eqb c LF then [c] :: readlines text'
      else match readlines text' with
           | [] => [[c]]
           | line :: lines => (c :: line) :: lines
           end
  end.

(** The loop of [parse_booking_data] over the data lines; [bookings] is the
    list built so far. *)
Fixpoint parse_lines (lines : list (list ascii)) (bookings : list Booking)
  : result (list Booking) :=
  match lines with
  | [] => ret bookings
  | raw :: rest =>
      let line := Str.strip raw in
      match line with
      | [] => parse_lines rest bookings
      | _ =>
          let parts := Str.strip <$> Str.split ","%char line in
          if (length parts <? 2)%nat then parse_lines rest bookings
          else
            let* id := Str.int (hd [] parts) in
            let seats := tail parts in
            let* dist := get_booking_max_distance seats in
            parse_lines rest
              (bookings ++ [mkBooking id seats dist None])
      end
  end.

(** [BusBoarding.parse_booking_data], from the text of the file it opens:
    the loop runs over [range(1, len(lines))], past the header. *)
Definition parse_booking_data (text : list ascii) : result (list Booking) :=
  let lines := readlines text in
  parse_lines (drop 1 lines) [].

(** The text of a file written line by line, as the tests write theirs. *)
Definition written (lines : list string) : list ascii :=
  mjoin ((λ line, Str.of_string line ++ [LF]) <$> lines).

(** ** The sequencer *)

Abbreviation loc := positive.

(** The key of [sorted]: [(-x['max_distance'], x['booking_id'])]. *)
Definition sort_key (b : Booking) : Z * Z := (- max_distance b, booking_id b).

(** [<] on pairs of integers, as Python compares tuples. *)
Definition key_lt (k1 k2 : Z * Z) : bool :=
  (k1.1 <? k2.1) || ((k1.1 =? k2.1) && (k1.2 <? k2.2)).

Section stable_sort.
Context {A : Type}.

(** [x] stood before every element of [l] in the input: it goes after the
    elements whose key is strictly smaller, before all the others. *)
Fixpoint insert_keyed (x : (Z * Z) * A) (l : list ((Z * Z) * A))
  : list ((Z * Z) * A) :=
  match l with
  | [] => [x]
  | y :: l' => if key_lt y.1 x.1 then y :: insert_keyed x l' else x :: l
  end.

Definition sort_keyed (l : list ((Z * Z) * A)) : list ((Z * Z) * A) :=
  foldr insert_keyed [] l.
End stable_sort.

Definition set_sequence (seq : Z) (b : Booking) : Booking :=
  mkBooking (booking_id b) (seats b) (max_distance b) (Some seq).

(** [for seq, booking in enumerate(l, start=seq): booking['sequence'] = seq] *)
Fixpoint assign_sequence (seq : Z) (l : list loc) (σ : gmap loc Booking)
  : gmap loc Booking :=
  match l with
  | [] => σ
  | r :: l' => assign_sequence (seq + 1) l' (alter (set_sequence seq) r σ)
  end.

(** The keys of the objects of a list, each with its object. [None] when a
    location of the list holds no object, which no Python list does. *)
Definition keyed (σ : gmap loc Booking) (l : list loc) : option (list ((Z * Z) * loc)) :=
  mapM (λ r, b ← σ !! r; Some (sort_key b, r)) l.

(** [BusBoarding.generate_boarding_sequence]: the new list [sorted] builds
    and the store after the loop. *)
Definition generate_boarding_sequence (σ : gmap loc Booking) (bookings : list loc)
  : option (list loc * gmap loc Booking) :=
  ks ← keyed σ bookings;
  let sorted_bookings := (sort_keyed ks).*2 in
  Some (sorted_bookings, assign_sequence 1 sorted_bookings σ).

(** ** Around the program: building and reading stores *)

(** Reading a list of bookings in a store. *)
Definition deref (σ : gmap loc Booking) (l : list loc) : option (list Booking) :=
  mapM (σ !!.) l.

(** A list of locations for fresh objects, as [parse_booking_data] and the
    tests build them. *)
Fixpoint alloc (bs : list Booking) (next : loc) (σ : gmap loc Booking)
  : list loc * gmap loc Booking :=
  match bs with
  | [] => ([], σ)
  | b :: bs' =>
      let '(l, σ') := alloc bs' (Pos.succ next) (<[next := b]> σ) in
      (next :: l, σ')
  end.

(** Removing the key ['sequence'] from the objects of a list. *)
Definition clear_sequence (b : Booking) : Booking :=
  mkBooking (booking_id b) (seats b) (max_distance b) None.

Definition strip_sequence (l : list loc) (σ : gmap loc Booking) : gmap loc Booking :=
  foldr (alter clear_sequence) σ l.

(** The sequencer on a list of fresh objects, and what its result reads. *)
Definition sequence_fresh (bs : list Booking) : option (list Booking) :=
  let '(l, σ) := alloc bs 1%positive ∅ in
  match generate_boarding_sequence σ l with
  | Some (l', σ') => deref σ' l'
  | None => None
  end.

(** What a caller reads in the result of the sequencer. *)
Definition boarding_report (σ : gmap loc Booking) (l : list loc)
  : option (list (Z * Z * option Z)) :=
  match generate_boarding_sequence σ l with
  | Some (l', σ') =>
      fmap (M := list) (λ b, (booking_id b, max_distance b, sequence b))
        <$> deref σ' l'
  | None => None
  end.

(** Every location of the list holds an object. *)
Definition allocated (σ : gmap loc Booking) (l : list loc) : Prop :=
  Forall (λ r, is_Some (σ !! r)) l.

(** What a booking is made of before sequencing. *)
Definition booking_data (b : Booking) : Z * list (list ascii) * Z :=
  (booking_id b, seats b, max_distance b).

(** ** The report renderer *)

Module Fmt.

Definition digit_char (d : Z) : ascii := ascii_of_nat (48 + Z.to_nat d).

(** The decimal digits of a natural number in front of [acc], least
    significant digit first into the accumulator. [fuel] bounds the number
    of digits; [Z.log2 n + 1] is enough. *)
Fixpoint digits_of (fuel : nat) (n : Z) (acc : list ascii) : list ascii :=
  match fuel with
  | O => acc
  | S fuel' =>
      let acc' := digit_char (n mod 10) :: acc in
      if n / 10 =? 0 then acc' else digits_of fuel' (n / 10) acc'
  end.

(** The decimal form of an integer, which [str(n)] returns when it
    returns: decimal digits, no leading zero, a minus sign for a negative
    number. *)
Definition of_Z (n : Z) : list ascii :=
  if n <? 0
  then "-"%char :: digits_of (S (Z.to_nat (Z.log2 (- n)))) (- n) []
  else digits_of (S (Z.to_nat (Z.log2 n))) n [].

(** [s.ljust(width)], which is what the format [:<width] does to a string
    and to the decimal form of an integer: spaces are added on the right
    up to the width, and nothing is cut. *)
Definition ljust (width : nat) (s : list ascii) : list ascii :=
  s ++ replicate (width - length s) " "%char.

(** [sep.join(l)] for a one-character separator. *)
Fixpoint join (sep : ascii) (l : list (list ascii)) : list ascii :=
  match l with
  | [] => []
  | [s] => s
  | s :: l' => s ++ sep :: join sep l'
  end.

End Fmt.

(** [str(n)], and [format(n, spec)] before it pads: the decimal form,
    refused when it has more digits than the limit; the sign does not
    count. *)
Definition str_int (n : Z) : result (list ascii) :=
  let s := Fmt.of_Z n in
  let negative : nat := if n <? 0 then 1%nat else 0%nat in
  let strlen_nosign := (length s - negative)%nat in
  if (Str.int_max_str_digits <? strlen_nosign)%nat
  then raise ValueError_str_max_digits
  else ret s.

(** [booking['sequence']] raises [KeyError] on a booking that was never
    sequenced; the other keys are always there. *)
Inductive key_error : Type := KeyError_sequence.

(** What opening, reading or writing a file can raise:
    [FileNotFoundError], which [main] tells apart; another [OSError]
    (permissions, a directory, ...); or [MemoryError], when the lines of
    the file do not fit in a list. *)
Inductive io_error : Type := FileNotFoundError | OSError | MemoryError.

(** What [print] can raise: [UnicodeEncodeError], on a character the
    encoding of the standard output does not have, or another exception
    of the write ([BrokenPipeError], [ValueError] on a closed stream, ...).
    All are caught by [except Exception]; none is a
    [FileNotFoundError]. *)
Inductive print_error : Type := UnicodeEncodeError | StdoutError.

(** The exceptions that reach [process_file] and [main]. *)
Inductive py_exn : Type :=
  | Raised_ValueError (e : exn)
  | Raised_KeyError (e : key_error)
  | Raised_io (e : io_error)
  | Raised_print (e : print_error).

Definition get_sequence (b : Booking) : py_exn + Z :=
  match sequence b with
  | Some seq => inr seq
  | None => inl (Raised_KeyError KeyError_sequence)
  end.

(** A replacement field on an integer, [{n}] or [{n:<w}], before the
    padding. *)
Definition format_int (n : Z) : py_exn + list ascii :=
  match str_int n with
  | inl e => inl (Raised_ValueError e)
  | inr s => inr s
  end.

(** [f"{booking['sequence']:<6} {booking['booking_id']}"]: the fields are
    evaluated and formatted one after the other, from left to right. *)
Definition simple_line (b : Booking) : py_exn + list ascii :=
  let* seq := get_sequence b in
  let* seq_str := format_int seq in
  let* id_str := format_int (booking_id b) in
  inr (Fmt.ljust 6 seq_str ++ " "%char :: id_str).

(** [seats_str = ','.join(booking['seats'])], then
    [f"{booking['sequence']:<6} {booking['booking_id']:<12} "
     f"{seats_str:<20} {booking['max_distance']}"] *)
Definition detailed_line (b : Booking) : py_exn + list ascii :=
  let seats_str := Fmt.join ","%char (seats b) in
  let* seq := get_sequence b in
  let* seq_str := format_int seq in
  let* id_str := format_int (booking_id b) in
  let* dist_str := format_int (max_distance b) in
  inr (Fmt.ljust 6 seq_str ++ " "%char ::
       Fmt.ljust 12 id_str ++ " "%char ::
       Fmt.ljust 20 seats_str ++ " "%char ::
       dist_str).

(** The loop of a report: one line per booking, in order; the first
    booking whose line raises stops it. *)
Fixpoint rows_by (line : Booking → py_exn + list ascii) (bookings : list Booking)
  : py_exn + list (list ascii) :=
  match bookings with
  | [] => inr []
  | b :: rest =>
      let* row := line b in
      let* rows := rows_by line rest in
      inr (row :: rows)
  end.

Definition simple_header : list ascii :=
  Fmt.ljust 6 str:"Seq" ++ " "%char :: str:"Booking_ID".

Definition detailed_header : list ascii :=
  Fmt.ljust 6 str:"Seq" ++ " "%char ::
  Fmt.ljust 12 str:"Booking_ID" ++ " "%char ::
  Fmt.ljust 20 str:"Seats" ++ " "%char :: str:"Max_Distance".

(** [BusBoarding.display_simple_sequence] *)
Definition display_simple_sequence (bookings : list Booking)
  : py_exn + list ascii :=
  let* rows := rows_by simple_line bookings in
  inr (Fmt.join LF (simple_header :: replicate 20 "-"%char :: rows)).

(** [BusBoarding.display_sequence] *)
Definition display_sequence (bookings : list Booking)
  : py_exn + list ascii :=
  let* rows := rows_by detailed_line bookings in
  inr (Fmt.join LF (detailed_header :: replicate 60 "-"%char :: rows)).

(** ** The file processor and the command line *)

(** What [main] prints, one constructor per call of [print], with the
    values the call formats. *)
Inductive printed : Type :=
  | Print_usage
  | Print_example
  | Print_result (text_out : list ascii)
  | Print_saved (output_file : list ascii)
  | Print_not_found (input_file : list ascii)
  | Print_error (e : py_exn).

(** The world the program runs in: what [open(path, 'r')] gives, the text
    of the file or an exception; whether [open(path, 'w')] followed by
    [write] succeeds ([None]) or raises; and whether a call of [print]
    succeeds ([None]) or raises. The calls of [print] of one run all differ
    in what they print, so that the last component also covers a standard
    output that fails from some call on. *)
Record Env : Type := mkEnv {
  file_content : list ascii → io_error + list ascii;
  write_file : list ascii → list ascii → option io_error;
  print_raises : printed → option print_error
}.

(** [sys.maxsize] on a 64-bit platform: no list has more items. *)
Definition sys_maxsize : Z := 2 ^ 63 - 1.

(** [open(path, 'r')] followed by [readlines]: the text read, which the
    ingestion cuts into lines. A list of more than [sys.maxsize] lines
    cannot be built: there is no memory for it. *)
Definition read_file (env : Env) (path : list ascii) : io_error + list ascii :=
  match file_content env path with
  | inl e => inl e
  | inr text =>
      if Z.of_nat (length (readlines text)) <=? sys_maxsize
      then inr text
      else inl MemoryError
  end.

(** What [process_file] returns and the file it has written, if any, which
    then holds the text returned. *)
Record processed : Type := mkProcessed {
  report : list ascii;
  saved : option (list ascii)
}.

(** [if output_file:] holds for a string that is not empty. *)
Definition truthy (output_file : option (list ascii)) : option (list ascii) :=
  match output_file with
  | Some (c :: path) => Some (c :: path)
  | _ => None
  end.

(** [BusBoarding.process_file]. The bookings [parse_booking_data] builds are
    fresh dictionaries: [sequence_fresh] puts them in a store of their own.
    [None] stands for a list location without object, as in
    [generate_boarding_sequence]. *)
Definition process_file (env : Env) (input_file : list ascii)
    (output_file : option (list ascii)) (simple_output : bool)
  : option (py_exn + processed) :=
  match read_file env input_file with
  | inl e => Some (inl (Raised_io e))
  | inr text =>
      match parse_booking_data text with
      | inl e => Some (inl (Raised_ValueError e))
      | inr bookings =>
          sorted_bookings ← sequence_fresh bookings;
          match (if simple_output
                 then display_simple_sequence sorted_bookings
                 else display_sequence sorted_bookings) with
          | inl e => Some (inl e)
          | inr text_out =>
              match truthy output_file with
              | Some path =>
                  match write_file env path text_out with
                  | Some e => Some (inl (Raised_io e))
                  | None => Some (inr (mkProcessed text_out (Some path)))
                  end
              | None => Some (inr (mkProcessed text_out None))
              end
          end
      end
  end.

(** [s.startswith(prefix)] *)
Fixpoint startswith (prefix s : list ascii) : bool :=
  match prefix, s with
  | [], _ => true
  | p :: prefix', c :: s' => Ascii.eqb p c && startswith prefix' s'
  | _ :: _, [] => false
  end.

(** How a run ends: the lines printed, in order, the exit status, and the
    file written in full, if any, with its content. *)
Record exit_state : Type := mkExit {
  stdout : list printed;
  status : Z;
  file_saved : option (list ascii * list ascii)
}.

(** [print(line)] after the lines [out]. *)
Definition print (env : Env) (line : printed) (out : list printed)
  : print_error + list printed :=
  match print_raises env line with
  | Some e => inl e
  | None => inr (out ++ [line])
  end.

(** The two [except] clauses of [main], on the exception [e] raised in the
    [try] block after the lines [out]: the message is printed and
    [sys.exit(1)] ends the program. When the print of the message raises,
    nothing catches that exception, and the interpreter ends with
    status 1 too. *)
Definition handler (env : Env) (input_file : list ascii) (e : py_exn)
    (out : list printed) (file : option (list ascii * list ascii))
  : exit_state :=
  let message :=
    match e with
    | Raised_io FileNotFoundError => Print_not_found input_file
    | _ => Print_error e
    end in
  match print env message out with
  | inl _ => mkExit out 1 file
  | inr out' => mkExit out' 1 file
  end.

(** [main], from [sys.argv]. *)
Definition main (env : Env) (argv : list (list ascii)) : option exit_state :=
  if (length argv <? 2)%nat
  then
    Some
      match print env Print_usage [] with
      | inl _ => mkExit [] 1 None
      | inr out =>
          match print env Print_example out with
          | inl _ => mkExit out 1 None
          | inr out' => mkExit out' 1 None
          end
      end
  else
    let input_file := argv !!! 1%nat in
    let output_file :=
      if (2 <? length argv)%nat && negb (startswith str:"--" (argv !!! 2%nat))
      then Some (argv !!! 2%nat) else None in
    let simple_output := bool_decide (str:"--simple" ∈ argv) in
    p ← process_file env input_file output_file simple_output;
    Some
      match p with
      | inl e => handler env input_file e [] None
      | inr p =>
          let file := (λ path, (path, report p)) <$> saved p in
          match print env (Print_result (report p)) [] with
          | inl e => handler env input_file (Raised_print e) [] file
          | inr out =>
              match truthy output_file with
              | Some path =>
                  match print env (Print_saved path) out with
                  | inl e => handler env input_file (Raised_print e) out file
                  | inr out' => mkExit out' 0 file
                  end
              | None => mkExit out 0 file
              end
          end
      end.

(** ** The vocabulary of the specification *)

(** The seat pattern of the specification, [^[A-Z]\d+$], on a string that
    has no trailing newline (a stripped string has none): one letter of
    [A-Z], then one or more digits, then the end of the string. *)
Definition seat_pattern_fullmatch (t : list ascii) : bool :=
  match t with
  | [] => false
  | c :: ds =>
      Str.is_AZ c && negb (bool_decide (ds = [])) && forallb Str.isdigit ds
  end.

(** The normal form of a seat label: trimmed, then uppercased. *)
Definition normalize (s : list ascii) : list ascii := Str.upper (Str.strip s).

(** A data line as the ingestion reads it: trimmed, cut at the commas, each
    field trimmed. *)
Definition fields (raw : list ascii) : list (list ascii) :=
  Str.strip <$> Str.split ","%char (Str.strip raw).

Definition blank (raw : list ascii) : bool :=
  bool_decide (Str.strip raw = []).

(** The malformed records of the specification: a non-blank data line with
    fewer than two comma-separated fields, or with a booking identifier
    that is not an integer. *)
Definition insufficient_fields (raw : list ascii) : bool :=
  negb (blank raw) && (length (fields raw) <? 2)%nat.

Definition non_integer_id (raw : list ascii) : bool :=
  negb (blank raw) &&
  match Str.int (hd [] (fields raw)) with
  | inl _ => true
  | inr _ => false
  end.

Definition malformed_record (raw : list ascii) : bool :=
  insufficient_fields raw || non_integer_id raw.

(** The data lines of a file: all its lines but the header. *)
Definition data_lines (text : list ascii) : list (list ascii) :=
  drop 1 (readlines text).

(** The order of the specification: [A] boards before [B]. *)
Definition boards_before (A B : Booking) : Prop :=
  max_distance A > max_distance B ∨
  (max_distance A = max_distance B ∧ booking_id A < booking_id B).

(** What the specification asks of the result on the input [l]: a
    permutation of [l] of the same length, whose sequence numbers read
    1, 2, ..., N in the order of the result. *)
Definition numbered_permutation (σ : gmap loc Booking) (l : list loc) : Prop :=
  ∃ l' σ' bs',
    generate_boarding_sequence σ l = Some (l', σ') ∧
    l' ≡ₚ l ∧ length l' = length l ∧
    deref σ' l' = Some bs' ∧
    sequence <$> bs' = Some <$> seqZ 1 (Z.of_nat (length l)).

(** The order between two bookings of the result when identifiers may
    repeat. *)
Definition boards_no_later (A B : Booking) : Prop :=
  max_distance A > max_distance B ∨
  (max_distance A = max_distance B ∧ booking_id A ≤ booking_id B).

(** A string starts the way the seat pattern asks: a letter of [A-Z], then
    a digit. *)
Definition has_seat_prefix (t : list ascii) : bool :=
  match t with
  | c :: d :: _ => Str.is_AZ c && Str.isdigit d
  | _ => false
  end.



(** The integers [str] prints: those of at most 4300 digits. *)
Definition printable (n : Z) : bool :=
  Z.abs n <? 10 ^ Z.of_nat Str.int_max_str_digits.

(** The bookings a report can print: those with a sequence number, whose
    integers the report prints are printable. *)
Definition simple_printable (b : Booking) : bool :=
  match sequence b with
  | Some k => printable k && printable (booking_id b)
  | None => false
  end.

Definition detailed_printable (b : Booking) : bool :=
  simple_printable b && printable (max_distance b).

(** What a report raises on a booking it cannot print. *)
Definition line_error (b : Booking) : py_exn :=
  match sequence b with
  | None => Raised_KeyError KeyError_sequence
  | Some _ => Raised_ValueError ValueError_str_max_digits
  end.

(** The rows of the reports, for a booking with sequence number [seq]. *)
Definition simple_row (seq : Z) (b : Booking) : list ascii :=
  Fmt.ljust 6 (Fmt.of_Z seq) ++ " "%char :: Fmt.of_Z (booking_id b).

Definition detailed_row (seq : Z) (b : Booking) : list ascii :=
  let seats_str := Fmt.join ","%char (seats b) in
  Fmt.ljust 6 (Fmt.of_Z seq) ++ " "%char ::
  Fmt.ljust 12 (Fmt.of_Z (booking_id b)) ++ " "%char ::
  Fmt.ljust 20 seats_str ++ " "%char ::
  Fmt.of_Z (max_distance b).

(** ** The vocabulary of the proofs *)

(** [<=] on pairs of integers, as Python compares tuples. *)
Definition key_le (k1 k2 : Z * Z) : Prop :=
  k1.1 < k2.1 ∨ (k1.1 = k2.1 ∧ k1.2 ≤ k2.2).

Definition keyed_le {A} (x y : (Z * Z) * A) : Prop := key_le x.1 y.1.

(** The sequence number an object ends the loop of [assign_sequence] with:
    the one of its last occurrence in the list. *)
Fixpoint final_seq (seq : Z) (l : list loc) (r : loc) : option Z :=
  match l with
  | [] => None
  | r' :: l' =>
      match final_seq (seq + 1) l' r with
      | Some k => Some k
      | None => if decide (r' = r) then Some seq else None
      end
  end.

Global Instance Booking_inhabited : Inhabited Booking :=
  populate (mkBooking 0 [] 0 None).

(** An object of the store with its key, and the locations of a list in the
    order [sorted] puts them. *)
Definition key_of (σ : gmap loc Booking) (r : loc) : (Z * Z) * loc :=
  (sort_key (σ !!! r), r).

Definition sorted_locs (σ : gmap loc Booking) (l : list loc) : list loc :=
  (sort_keyed (key_of σ <$> l)).*2.

(** The data lines the loop of [parse_booking_data] makes a booking of: the
    non-blank lines with at least two fields. *)
Definition is_record (raw : list ascii) : bool :=
  negb (blank raw) && negb (length (fields raw) <? 2)%nat.

(** What the loop makes of such a line. *)
Definition record_of (raw : list ascii) : result Booking :=
  let* id := Str.int (hd [] (fields raw)) in
  let seats := tail (fields raw) in
  let* dist := get_booking_max_distance seats in
  ret (mkBooking id seats dist None).

(** The report [process_file] asks for. *)
Definition render (simple_output : bool) (bs : list Booking) : py_exn + list ascii :=
  if simple_output then display_simple_sequence bs else display_sequence bs.

(** The output file [main] passes to [process_file]. *)
Definition output_file_of (argv : list (list ascii)) : option (list ascii) :=
  if (2 <? length argv)%nat && negb (startswith str:"--" (argv !!! 2%nat))
  then Some (argv !!! 2%nat) else None.

(** The call of [process_file] in [main]. *)
Definition main_process (env : Env) (argv : list (list ascii))
  : option (py_exn + processed) :=
  process_file env (argv !!! 1%nat) (output_file_of argv)
    (bool_decide (str:"--simple" ∈ argv)).

(** The message of the [except] clause that catches [e], and the lines a
    call of [print] adds to the output. *)
Definition message (input_file : list ascii) (e : py_exn) : printed :=
  match e with
  | Raised_io FileNotFoundError => Print_not_found input_file
  | _ => Print_error e
  end.

Definition printed_if (env : Env) (line : printed) : list printed :=
  match print_raises env line with
  | Some _ => []
  | None => [line]
  end.

Definition test_bookings : list Booking :=
  [mkBooking 101 [str:"A1"; str:"B1"] 1 None;
   mkBooking 120 [str:"A20"; str:"C2"] 20 None;
   mkBooking 201 [str:"C2"] 2 None;
   mkBooking 213 [str:"C18"] 18 None].

Definition tie_bookings : list Booking :=
  [mkBooking 150 [str:"A10"] 10 None;
   mkBooking 100 [str:"B10"] 10 None;
   mkBooking 125 [str:"C10"] 10 None].

Definition test_env : Env :=
  mkEnv (λ path, if bool_decide (path = str:"bookings.csv")
                 then inr (written ["Booking_id,Seats"; "101,A1,b1"; "120,A20,c2"])
                 else inl FileNotFoundError)
        (λ _ _, None) (λ _, None).

(** * Properties *)

(** ** The program on the inputs of its tests *)

Example parse_seat_c2 : parse_seat str:" c2 " = inr ("C"%char, 2).
Proof. reflexivity. Qed.

Example int_literals :
  Str.int str:"007" = inr 7 ∧ Str.int str:"-12" = inr (-12) ∧
  Str.int str:"+1_000" = inr 1000 ∧ Str.int str:" 42 " = inr 42 ∧
  raises (Str.int str:"") ∧ raises (Str.int str:"1__0") ∧
  raises (Str.int str:"12_") ∧ raises (Str.int str:"x20") ∧
  raises (Str.int str:"+ 1") ∧ raises (Str.int str:"1 2").
Proof. repeat split; try reflexivity; by eexists. Qed.

Example int_digit_limit :
  Str.int (replicate 4300 "1"%char) = inr (Str.digits_value (replicate 4300 "1"%char)) ∧
  Str.int (replicate 4301 "0"%char) = inl (ValueError_max_str_digits 4301) ∧
  Str.int (replicate 4301 "1"%char ++ str:"x") = inl (ValueError_max_str_digits 4301) ∧
  Str.int (replicate 4301 "1"%char ++ str:"__1")
    = inl (ValueError_invalid_literal (replicate 4301 "1"%char ++ str:"__1")).
Proof. repeat split; vm_compute; reflexivity. Qed.

Example max_distance_3 :
  get_booking_max_distance [str:"C2"; str:"A1"; str:"B15"] = inr 15.
Proof. reflexivity. Qed.

Example readlines_3 :
  readlines (str:"h" ++ [LF] ++ [LF] ++ str:"1,A1") =
  [str:"h" ++ [LF]; [LF]; str:"1,A1"].
Proof. reflexivity. Qed.

Example parse_booking_data_2 :
  parse_booking_data (written ["Booking_id,Seats"; "101,A1,B1"; "120,A20,C2"])
  = inr [mkBooking 101 [str:"A1"; str:"B1"] 1 None;
         mkBooking 120 [str:"A20"; str:"C2"] 20 None].
Proof. reflexivity. Qed.

Example generate_boarding_sequence_4 :
  fmap (M := list) (λ b, (booking_id b, sequence b))
    <$> sequence_fresh test_bookings
  = Some [(120, Some 1); (213, Some 2); (201, Some 3); (101, Some 4)].
Proof. vm_compute. reflexivity. Qed.

Example generate_boarding_sequence_ties :
  fmap (M := list) booking_id <$> sequence_fresh tie_bookings
  = Some [100; 125; 150].
Proof. vm_compute. reflexivity. Qed.

Example of_Z_values :
  Fmt.of_Z 0 = str:"0" ∧ Fmt.of_Z 120 = str:"120" ∧ Fmt.of_Z (-7) = str:"-7" ∧
  Fmt.of_Z 1000000 = str:"1000000".
Proof. repeat split; reflexivity. Qed.

Example display_simple_sequence_2 :
  display_simple_sequence
    [mkBooking 120 [str:"A20"] 20 (Some 1); mkBooking 101 [str:"A1"] 1 (Some 2)]
  = inr (str:"Seq    Booking_ID" ++ [LF] ++
         str:"--------------------" ++ [LF] ++
         str:"1      120" ++ [LF] ++
         str:"2      101").
Proof. reflexivity. Qed.

Example display_sequence_1 :
  display_sequence [mkBooking 120 [str:"A20"; str:"C2"] 20 (Some 1)]
  = inr (str:"Seq    Booking_ID   Seats                Max_Distance" ++ [LF] ++
         str:"------------------------------------------------------------" ++ [LF] ++
         str:"1      120          A20,C2               20").
Proof. reflexivity. Qed.

Example main_simple_saved :
  main test_env [str:"prog"; str:"bookings.csv"; str:"out.txt"; str:"--simple"]
  = Some (mkExit
            [Print_result (str:"Seq    Booking_ID" ++ [LF] ++
                           str:"--------------------" ++ [LF] ++
                           str:"1      120" ++ [LF] ++ str:"2      101");
             Print_saved str:"out.txt"]
            0
            (Some (str:"out.txt",
                   str:"Seq    Booking_ID" ++ [LF] ++
                   str:"--------------------" ++ [LF] ++
                   str:"1      120" ++ [LF] ++ str:"2      101"))).
Proof. vm_compute. reflexivity. Qed.

Example main_flag_before_output :
  file_saved <$>
    main test_env [str:"prog"; str:"bookings.csv"; str:"--simple"; str:"out.txt"]
  = Some None.
Proof. vm_compute. reflexivity. Qed.

Example main_missing_file :
  main test_env [str:"prog"; str:"nothing.csv"]
  = Some (mkExit [Print_not_found str:"nothing.csv"] 1 None).
Proof. vm_compute. reflexivity. Qed.

(** The mark of the line that names the output file is not ASCII: on a
    standard output that cannot encode it, the print raises after the file
    was written and the report printed. *)
Example main_saved_line_not_printed :
  main (mkEnv (file_content test_env) (λ _ _, None)
          (λ line, match line with
                   | Print_saved _ => Some UnicodeEncodeError
                   | _ => None
                   end))
    [str:"prog"; str:"bookings.csv"; str:"out.txt"; str:"--simple"]
  = Some (mkExit
            [Print_result (str:"Seq    Booking_ID" ++ [LF] ++
                           str:"--------------------" ++ [LF] ++
                           str:"1      120" ++ [LF] ++ str:"2      101");
             Print_error (Raised_print UnicodeEncodeError)]
            1
            (Some (str:"out.txt",
                   str:"Seq    Booking_ID" ++ [LF] ++
                   str:"--------------------" ++ [LF] ++
                   str:"1      120" ++ [LF] ++ str:"2      101"))).
Proof. vm_compute. reflexivity. Qed.

Example main_usage_2 :
  main test_env [str:"prog"] = Some (mkExit [Print_usage; Print_example] 1 None).
Proof. reflexivity. Qed.

Example full_workflow :
  match parse_booking_data
          (written ["Booking_id,Seats"; "101,A1,b1"; "120,A20,c2"; "201,c2"; "213,c18"])
  with
  | inr bs => fmap (M := list) booking_id <$> sequence_fresh bs
  | inl _ => None
  end = Some [120; 213; 201; 101].
Proof. vm_compute. reflexivity. Qed.

(** ** Characters and strings *)

Section strings.
Import Str.


Lemma isdigit_not_space c : isdigit c = true → isspace c = false.
Proof. destruct c as [[] [] [] [] [] [] [] []]; simpl; intros; done. Qed.

Lemma isdigit_not_sign c :
  isdigit c = true → Ascii.eqb c "-" = false ∧ Ascii.eqb c "+" = false.
Proof. destruct c as [[] [] [] [] [] [] [] []]; simpl; intros; done. Qed.



Lemma lstrip_spaces_app ws s :
  forallb isspace ws = true → lstrip (ws ++ s) = lstrip s.
Proof.
  induction ws as [|c ws IH]; [done|]. simpl.
  intros [Hc Hws]%andb_prop. rewrite Hc. auto.
Qed.

Lemma lstrip_spaces ws : forallb isspace ws = true → lstrip ws = [].
Proof.
  intros H. rewrite <- (app_nil_r ws), lstrip_spaces_app by done. done.
Qed.

(** What [lstrip] drops is white, and what it keeps starts with a
    character that is not. *)
Lemma lstrip_split s :
  ∃ ws, forallb isspace ws = true ∧ s = ws ++ lstrip s.
Proof.
  induction s as [|c s (ws & Hws & Hs)]; [by exists []|]. simpl.
  destruct (isspace c) eqn:Hc.
  - exists (c :: ws). simpl. rewrite Hc, Hws. split; [done|]. by f_equal.
  - by exists [].
Qed.

Lemma lstrip_app_nonempty s t :
  lstrip s ≠ [] → lstrip (s ++ t) = lstrip s ++ t.
Proof.
  induction s as [|c s IH]; [done|]. simpl.
  destruct (isspace c); [exact IH | done].
Qed.

Lemma forallb_reverse {A} (f : A → bool) l :
  forallb f (reverse l) = forallb f l.
Proof.
  induction l as [|x l IH]; [done|].
  rewrite reverse_cons, forallb_app, IH. simpl.
  rewrite andb_true_r. apply andb_comm.
Qed.

Lemma rstrip_spaces_app s ws :
  forallb isspace ws = true → rstrip (s ++ ws) = rstrip s.
Proof.
  intros H. unfold rstrip. rewrite reverse_app, lstrip_spaces_app; [done|].
  by rewrite forallb_reverse.
Qed.

(** Surrounding whitespace does not change what [strip] returns. *)
Lemma strip_spaces_app ws1 s ws2 :
  forallb isspace ws1 = true → forallb isspace ws2 = true →
  strip (ws1 ++ s ++ ws2) = strip s.
Proof.
  intros H1 H2. unfold strip. rewrite lstrip_spaces_app by done.
  destruct (lstrip s) as [|c t] eqn:Hs.
  - destruct (lstrip_split s) as (ws & Hws & Heq). rewrite Hs, app_nil_r in Heq.
    subst s. rewrite lstrip_spaces_app, lstrip_spaces by done. done.
  - rewrite lstrip_app_nonempty, Hs by (by rewrite Hs).
    by apply rstrip_spaces_app.
Qed.

Lemma strip_no_space s :
  forallb (λ c, negb (isspace c)) s = true → strip s = s.
Proof.
  assert (Hl : ∀ t, forallb (λ c, negb (isspace c)) t = true → lstrip t = t).
  { intros [|c t]; [done|]. simpl. intros [Hc _]%andb_prop.
    by destruct (isspace c). }
  intros H. unfold strip, rstrip. rewrite (Hl s H), Hl.
  - apply reverse_involutive.
  - by rewrite forallb_reverse.
Qed.

Lemma digits_no_space ds :
  forallb isdigit ds = true → forallb (λ c, negb (isspace c)) ds = true.
Proof.
  induction ds as [|c ds IH]; [done|]. simpl.
  intros [Hc Hds]%andb_prop. by rewrite (isdigit_not_space c Hc), IH.
Qed.


Lemma int_body_digits ds : ∀ acc prev,
  forallb isdigit ds = true → ds ≠ [] ∨ prev = true →
  int_body acc prev ds = Some (foldl (λ a c, 10 * a + digit_val c) acc ds).
Proof.
  induction ds as [|c ds IH]; intros acc prev Hds Hne.
  - destruct Hne as [?| ->]; done.
  - simpl in *. apply andb_prop in Hds as [Hc Hds]. rewrite Hc.
    apply IH; auto.
Qed.

Lemma isdigit_not_space_c c : isdigit c = true → isspace_c c = false.
Proof. destruct c as [[] [] [] [] [] [] [] []]; simpl; intros; done. Qed.

Lemma lstrip_c_digit c s : isdigit c = true → lstrip_c (c :: s) = c :: s.
Proof. intros Hc. simpl. by rewrite (isdigit_not_space_c c Hc). Qed.

Lemma span_literal_digits ds :
  forallb isdigit ds = true → span_literal ds = (ds, []).
Proof.
  induction ds as [|c ds IH]; [done|]. simpl.
  intros [Hc Hds]%andb_prop. by rewrite Hc, IH.
Qed.

Lemma count_digits_all ds :
  forallb isdigit ds = true → count_digits ds = length ds.
Proof.
  unfold count_digits. induction ds as [|c ds IH]; [done|]. simpl.
  intros [Hc Hds]%andb_prop. rewrite filter_cons_True by by rewrite Hc.
  simpl. by rewrite IH.
Qed.

(** [int] on a non-empty run of digits is its decimal value, unless the
    digits are more than the limit. *)
Lemma int_digits ds :
  forallb isdigit ds = true → ds ≠ [] →
  int ds = if (int_max_str_digits <? length ds)%nat
           then inl (ValueError_max_str_digits (length ds))
           else inr (digits_value ds).
Proof.
  intros Hds Hne. unfold int.
  destruct ds as [|c ds]; [done|].
  pose proof Hds as [Hc _]%andb_prop.
  rewrite (lstrip_c_digit c ds Hc).
  destruct (isdigit_not_sign c Hc) as [-> ->].
  rewrite (span_literal_digits (c :: ds) Hds).
  rewrite (int_body_digits (c :: ds) 0 false) by auto.
  rewrite count_digits_all by done.
  by destruct (int_max_str_digits <? length (c :: ds))%nat.
Qed.

Lemma foldl_digits_nonneg ds : ∀ acc,
  0 ≤ acc → 0 ≤ foldl (λ a c, 10 * a + digit_val c) acc ds.
Proof.
  induction ds as [|c ds IH]; intros acc Hacc; simpl; [done|].
  apply IH. unfold digit_val. lia.
Qed.

Lemma digits_value_nonneg ds : 0 ≤ digits_value ds.
Proof. by apply foldl_digits_nonneg. Qed.
End strings.

(** ** The seat parser *)

Section seat_parser.
Import Str.

Lemma span_digits_spec s ds r :
  span_digits s = (ds, r) → forallb isdigit ds = true ∧ s = ds ++ r.
Proof.
  revert ds r. induction s as [|c s IH]; intros ds r; simpl.
  - by intros [= <- <-].
  - destruct (isdigit c) eqn:Hc.
    + destruct (span_digits s) as [ds' r'].
      intros [= <- <-]. destruct (IH _ _ eq_refl) as [Hds ->].
      simpl. by rewrite Hc, Hds.
    + by intros [= <- <-].
Qed.

Lemma re_match_seat_Some t c ds :
  re_match_seat t = Some (c, ds) →
  is_AZ c = true ∧ forallb isdigit ds = true ∧ ds ≠ [] ∧ ∃ r, t = c :: ds ++ r.
Proof.
  destruct t as [|c' t]; [done|]. simpl.
  destruct (is_AZ c') eqn:Hc; [|done].
  destruct (span_digits t) as [ds' r] eqn:Hspan.
  apply span_digits_spec in Hspan as [Hds ->].
  destruct ds' as [|d ds']; [done|].
  intros [= <- <-]. eauto.
Qed.

(** Whenever the pattern matches a prefix of the normal form, group 2 is a
    well-formed literal: the parser returns unless the digits are more
    than the limit of [int]. *)
Lemma parse_seat_match s c ds :
  re_match_seat (normalize s) = Some (c, ds) →
  parse_seat s = if (int_max_str_digits <? length ds)%nat
                 then inl (ValueError_max_str_digits (length ds))
                 else inr (c, digits_value ds).
Proof.
  intros H. unfold parse_seat. fold (normalize s). rewrite H.
  apply re_match_seat_Some in H as (_ & Hds & Hne & _).
  rewrite int_digits by done.
  by destruct (int_max_str_digits <? length ds)%nat.
Qed.


Lemma parse_seat_no_match s :
  re_match_seat (normalize s) = None →
  parse_seat s = inl (ValueError_invalid_seat (normalize s)).
Proof. intros H. unfold parse_seat. fold (normalize s). by rewrite H. Qed.





(** The parser raises its own exception or the one of [int] on too many
    digits. *)
Lemma parse_seat_exn s e :
  parse_seat s = inl e →
  e = ValueError_invalid_seat (normalize s) ∨ ∃ n, e = ValueError_max_str_digits n.
Proof.
  destruct (re_match_seat (normalize s)) as [[c ds]|] eqn:H.
  - rewrite (parse_seat_match _ _ _ H).
    destruct (int_max_str_digits <? length ds)%nat; [|done].
    intros [= <-]. eauto.
  - rewrite (parse_seat_no_match _ H). intros [= <-]. by left.
Qed.

Lemma parse_seat_inr_nonneg s L n : parse_seat s = inr (L, n) → 0 ≤ n.
Proof.
  destruct (re_match_seat (normalize s)) as [[c ds]|] eqn:H.
  - rewrite (parse_seat_match _ _ _ H).
    destruct (int_max_str_digits <? length ds)%nat; [done|].
    intros [= _ <-]. apply digits_value_nonneg.
  - by rewrite (parse_seat_no_match _ H).
Qed.
End seat_parser.

(** C3, as stated, fails: a letter followed by 4301 digits is a valid
    label, and [int] refuses its digits. *)
Lemma parse_seat_digit_limit :
  ¬ (∀ s : list ascii,
       seat_pattern_fullmatch (normalize s) = true →
       ∃ L n, parse_seat s = inr (L, n)).
Proof.
  intros H.
  destruct (H ("A"%char :: replicate 4301 "1"%char)) as (L & n & Hp).
  - vm_compute. reflexivity.
  - vm_compute in Hp. discriminate.
Qed.



(** C4, at the label "A1X": its normal form is not a letter followed by
    digits only, yet the parser returns seat 1 of row A and raises
    nothing. *)
Theorem parse_seat_accepts_trailing_characters :
  seat_pattern_fullmatch (normalize str:"A1X") = false ∧
  parse_seat str:"A1X" = inr ("A"%char, 1).
Proof. split; reflexivity. Qed.

(** The labels whose normal form does not start with a letter of [A-Z]
    and a digit are refused. *)
Lemma parse_seat_raises_no_match (s : list ascii) :
  Str.re_match_seat (normalize s) = None → raises (parse_seat s).
Proof. intros H. eexists. by apply parse_seat_no_match. Qed.

Example parse_seat_123 : raises (parse_seat str:"123").
Proof. by apply parse_seat_raises_no_match. Qed.

Example parse_seat_ABC : raises (parse_seat str:"ABC").
Proof. by apply parse_seat_raises_no_match. Qed.

(** ** Distances *)

Lemma get_seat_distance_parse s L n :
  parse_seat s = inr (L, n) → get_seat_distance s = inr n.
Proof. intros H. unfold get_seat_distance. by rewrite H. Qed.

Lemma get_seat_distance_exn s e :
  get_seat_distance s = inl e → e ≠ ValueError_max_empty.
Proof.
  unfold get_seat_distance. destruct (parse_seat s) as [e'|p] eqn:H; [|done].
  intros [= <-]. by destruct (parse_seat_exn _ _ H) as [->|[n ->]].
Qed.

Lemma max_loop_spec seats : ∀ ds cur,
  Forall2 (λ s d, get_seat_distance s = inr d) seats ds →
  ∃ m, max_loop cur seats = inr m ∧ m ∈ cur :: ds ∧ Forall (λ d, d ≤ m) (cur :: ds).
Proof.
  induction seats as [|s seats IH]; intros ds cur Hds.
  - inv Hds. exists cur. split; [done|]. split; [left|]. by repeat constructor.
  - inv Hds. rename y into d, l' into ds. simpl.
    match goal with H : get_seat_distance s = _ |- _ => rewrite H end. simpl.
    destruct (IH ds (if cur <? d then d else cur)) as (m & -> & Hin & Hle); [done|].
    exists m. split; [done|].
    apply Forall_cons in Hle as [Hle1 Hle]. split.
    + apply elem_of_cons in Hin as [->|Hin].
      * destruct (cur <? d); [right; left | left].
      * by do 2 right.
    + repeat constructor; [| |done]; destruct (Z.ltb_spec cur d); lia.
Qed.

Lemma max_loop_exn seats : ∀ cur e,
  max_loop cur seats = inl e → e ≠ ValueError_max_empty.
Proof.
  induction seats as [|s seats IH]; intros cur e; [done|]. simpl.
  destruct (get_seat_distance s) as [e'|d] eqn:Hs; simpl.
  - intros [= <-]. by apply (get_seat_distance_exn _ _ Hs).
  - apply IH.
Qed.

(** C5. The distance of a seat the parser accepts is its seat number,
    whatever its row letter; and the distance of a booking with at least one
    seat, all of them accepted, is the largest of the distances of its
    seats: one of them, and no smaller than any. *)
Theorem booking_distance_is_max :
  (∀ s L n, parse_seat s = inr (L, n) → get_seat_distance s = inr n) ∧
  (∀ seats ds,
     seats ≠ [] →
     Forall2 (λ s d, get_seat_distance s = inr d) seats ds →
     ∃ m, get_booking_max_distance seats = inr m ∧
          m ∈ ds ∧ Forall (λ d, d ≤ m) ds).
Proof.
  split; [apply get_seat_distance_parse|].
  intros seats ds Hne Hds. destruct Hds as [|s d seats ds Hs Hds]; [done|].
  simpl. rewrite Hs. simpl. by apply max_loop_spec.
Qed.

Lemma booking_distance_is_max_witness :
  get_seat_distance str:"B15" = inr 15 ∧
  ∃ m, get_booking_max_distance [str:"C2"; str:"A1"; str:"B15"] = inr m ∧
       m ∈ [2; 1; 15] ∧ Forall (λ d, d ≤ m) [2; 1; 15].
Proof.
  destruct booking_distance_is_max as [Hseat Hmax]. split.
  - apply (Hseat str:"B15" "B"%char 15). reflexivity.
  - apply (Hmax [str:"C2"; str:"A1"; str:"B15"] [2; 1; 15]).
    + discriminate.
    + repeat constructor.
Defined.

(** C10. On the empty list of seats [get_booking_max_distance] returns no
    distance: it raises the exception of [max] on an empty iterable. A list
    with at least one seat never raises that exception. *)
Theorem get_booking_max_distance_empty :
  get_booking_max_distance [] = inl ValueError_max_empty ∧
  (∀ seats, seats ≠ [] →
            get_booking_max_distance seats ≠ inl ValueError_max_empty).
Proof.
  split; [done|]. intros [|s seats] Hne; [done|]. simpl.
  destruct (get_seat_distance s) as [e|d] eqn:Hs; simpl.
  - intros [= ->]. by apply (get_seat_distance_exn _ _ Hs).
  - intros H. by apply max_loop_exn in H.
Qed.

Lemma get_booking_max_distance_empty_witness :
  get_booking_max_distance [] = inl ValueError_max_empty ∧
  get_booking_max_distance [str:"A1"] ≠ inl ValueError_max_empty.
Proof.
  destruct get_booking_max_distance_empty as [Hnil Hcons]. split.
  - exact Hnil.
  - apply (Hcons [str:"A1"]). discriminate.
Defined.

(** ** Record ingestion *)

(** One turn of the loop of [parse_booking_data], by the kind of line. *)
Lemma parse_lines_blank raw rest acc :
  blank raw = true → parse_lines (raw :: rest) acc = parse_lines rest acc.
Proof.
  unfold blank. intros H%bool_decide_eq_true. simpl. by rewrite H.
Qed.

Lemma parse_lines_short raw rest acc :
  insufficient_fields raw = true →
  parse_lines (raw :: rest) acc = parse_lines rest acc.
Proof.
  unfold insufficient_fields, blank, fields.
  intros [Hb Hlen]%andb_prop. simpl.
  destruct (Str.strip raw) as [|c t]; [done|]. by rewrite Hlen.
Qed.

Lemma parse_lines_record raw rest acc :
  blank raw = false → insufficient_fields raw = false →
  parse_lines (raw :: rest) acc =
    let* id := Str.int (hd [] (fields raw)) in
    let* dist := get_booking_max_distance (tail (fields raw)) in
    parse_lines rest (acc ++ [mkBooking id (tail (fields raw)) dist None]).
Proof.
  unfold insufficient_fields, blank, fields. intros Hb Hlen.
  rewrite Hb in Hlen. simpl in Hlen. apply bool_decide_eq_false in Hb.
  simpl. destruct (Str.strip raw) as [|c t]; [done|]. by rewrite Hlen.
Qed.

Lemma parse_lines_raises lines :
  Exists (λ raw, insufficient_fields raw = false ∧ non_integer_id raw = true) lines →
  ∀ acc, raises (parse_lines lines acc).
Proof.
  induction 1 as [raw rest [Hlen Hid]|raw rest _ IH]; intros acc.
  - unfold non_integer_id in Hid. apply andb_prop in Hid as [Hb Hid].
    apply negb_true_iff in Hb. rewrite parse_lines_record by done.
    destruct (Str.int (hd [] (fields raw))) as [e|id]; [|done]. by exists e.
  - destruct (blank raw) eqn:Hb; [by rewrite parse_lines_blank|].
    destruct (insufficient_fields raw) eqn:Hlen; [by rewrite parse_lines_short|].
    rewrite parse_lines_record by done.
    destruct (Str.int (hd [] (fields raw))) as [e|id]; [by exists e|]. simpl.
    destruct (get_booking_max_distance (tail (fields raw))) as [e|d]; [by exists e|].
    apply IH.
Qed.

Lemma parse_lines_skip_short lines : ∀ acc,
  parse_lines (filter (λ raw, insufficient_fields raw = false) lines) acc =
  parse_lines lines acc.
Proof.
  induction lines as [|raw rest IH]; intros acc; [done|].
  destruct (insufficient_fields raw) eqn:Hlen.
  - rewrite filter_cons_False by (by rewrite Hlen).
    by rewrite parse_lines_short.
  - rewrite filter_cons_True by done.
    destruct (blank raw) eqn:Hb; [by rewrite !parse_lines_blank|].
    rewrite !parse_lines_record by done.
    destruct (Str.int (hd [] (fields raw))) as [e|id]; [done|]. simpl.
    destruct (get_booking_max_distance (tail (fields raw))) as [e|d]; [done|].
    apply IH.
Qed.

(** C8, as stated, fails: a data line with a single field is a malformed
    record of the specification, and the ingestion skips it and returns the
    bookings of the other lines. *)
Lemma parse_booking_data_short_line_no_error :
  ¬ (∀ text : list ascii,
       Exists (λ raw, malformed_record raw = true) (data_lines text) →
       raises (parse_booking_data text)).
Proof.
  intros H.
  destruct (H (written ["Booking_id,Seats"; "101"; "120,A20,C2"])) as [e He].
  - apply Exists_cons_hd. reflexivity.
  - vm_compute in He. discriminate.
Qed.

(** C8, amended. When a data line has at least two comma-separated fields
    and a booking identifier that is not an integer, the ingestion raises
    and returns no list, whatever the other lines are. A line with fewer
    than two fields is not an error: it is skipped, and two files whose data
    lines are the same once such lines are left out give the same result. *)
Theorem parse_booking_data_malformed (text : list ascii) :
  (Exists (λ raw, insufficient_fields raw = false ∧ non_integer_id raw = true)
     (data_lines text) →
   raises (parse_booking_data text)) ∧
  (∀ text',
     filter (λ raw, insufficient_fields raw = false) (data_lines text') =
     filter (λ raw, insufficient_fields raw = false) (data_lines text) →
     parse_booking_data text' = parse_booking_data text).
Proof.
  split.
  - intros H. by apply parse_lines_raises.
  - intros text' H. unfold parse_booking_data. fold (data_lines text) (data_lines text').
    by rewrite <- (parse_lines_skip_short (data_lines text')), H, parse_lines_skip_short.
Qed.

Lemma parse_booking_data_malformed_witness :
  raises (parse_booking_data (written ["Booking_id,Seats"; "101,A1"; "x20,A20"])) ∧
  parse_booking_data (written ["Booking_id,Seats"; "101"; "120,A20,C2"]) =
  parse_booking_data (written ["Booking_id,Seats"; "120,A20,C2"]).
Proof.
  split.
  - apply (parse_booking_data_malformed
             (written ["Booking_id,Seats"; "101,A1"; "x20,A20"])).
    apply Exists_cons_tl, Exists_cons_hd. split; reflexivity.
  - apply (parse_booking_data_malformed
             (written ["Booking_id,Seats"; "120,A20,C2"])).
    reflexivity.
Defined.

(** ** The sort *)

Section sort.
Context {A : Type}.
Implicit Types (x y : (Z * Z) * A) (l : list ((Z * Z) * A)).

Lemma key_lt_true k1 k2 :
  key_lt k1 k2 = true ↔ k1.1 < k2.1 ∨ (k1.1 = k2.1 ∧ k1.2 < k2.2).
Proof.
  unfold key_lt.
  rewrite orb_true_iff, andb_true_iff, !Z.ltb_lt, Z.eqb_eq. done.
Qed.

Lemma key_lt_false k1 k2 : key_lt k1 k2 = false ↔ key_le k2 k1.
Proof.
  rewrite <- not_true_iff_false, key_lt_true. unfold key_le. lia.
Qed.

Lemma key_lt_le k1 k2 : key_lt k1 k2 = true → key_le k1 k2.
Proof. rewrite key_lt_true. unfold key_le. lia. Qed.

Global Instance key_le_trans : Transitive key_le.
Proof. intros k1 k2 k3. unfold key_le. lia. Qed.

Lemma key_le_antisym k1 k2 : key_le k1 k2 → key_le k2 k1 → k1 = k2.
Proof.
  destruct k1, k2. unfold key_le. simpl. intros ??. f_equal; lia.
Qed.

Global Instance keyed_le_trans : Transitive (@keyed_le A).
Proof. intros x y z. unfold keyed_le. apply key_le_trans. Qed.

Lemma insert_keyed_perm x l : insert_keyed x l ≡ₚ x :: l.
Proof.
  induction l as [|y l IH]; [done|]. simpl.
  destruct (key_lt y.1 x.1); [|done].
  rewrite IH. apply Permutation_swap.
Qed.

Lemma sort_keyed_perm l : sort_keyed l ≡ₚ l.
Proof.
  induction l as [|x l IH]; [done|]. simpl.
  by rewrite insert_keyed_perm, IH.
Qed.

Lemma insert_keyed_sorted x l :
  StronglySorted keyed_le l → StronglySorted keyed_le (insert_keyed x l).
Proof.
  induction 1 as [|y l Hl IH Hy]; simpl.
  { repeat constructor. }
  destruct (key_lt y.1 x.1) eqn:Hlt.
  - constructor; [done|]. rewrite insert_keyed_perm.
    constructor; [|done]. by apply key_lt_le.
  - apply key_lt_false in Hlt.
    constructor; [by constructor|].
    constructor; [done|].
    eapply Forall_impl; [exact Hy|]. intros z Hz. by trans y.
Qed.

Lemma sort_keyed_sorted l : StronglySorted keyed_le (sort_keyed l).
Proof.
  induction l as [|x l IH]; simpl; [constructor|].
  by apply insert_keyed_sorted.
Qed.

(** A list already in order is returned as it is. *)
Lemma sort_keyed_id l : StronglySorted keyed_le l → sort_keyed l = l.
Proof.
  induction 1 as [|x l Hl IH Hx]; [done|]. simpl. rewrite IH.
  destruct Hx as [|y l Hxy _]; [done|]. simpl.
  apply key_lt_false in Hxy. by rewrite Hxy.
Qed.

Lemma key_lt_irrefl k : key_lt k k = false.
Proof. apply key_lt_false. unfold key_le. lia. Qed.

Lemma insert_keyed_stable k x l :
  filter (λ y, y.1 = k) (insert_keyed x l) = filter (λ y, y.1 = k) (x :: l).
Proof.
  induction l as [|y l IH]; [done|]. simpl.
  destruct (key_lt y.1 x.1) eqn:Hlt; [|done].
  assert (Hne : y.1 ≠ x.1).
  { intros Heq. by rewrite Heq, key_lt_irrefl in Hlt. }
  rewrite (filter_cons _ y (insert_keyed x l)), IH, !filter_cons.
  repeat case_decide; congruence.
Qed.

(** The sort is stable: the elements of equal key keep the order they had
    in the input. *)
Lemma sort_keyed_stable k l :
  filter (λ y, y.1 = k) (sort_keyed l) = filter (λ y, y.1 = k) l.
Proof.
  induction l as [|x l IH]; [done|]. simpl.
  by rewrite insert_keyed_stable, !filter_cons, IH.
Qed.

End sort.

Lemma StronglySorted_lookup {A} (R : relation A) (l : list A) i j a b :
  StronglySorted R l → (i < j)%nat → l !! i = Some a → l !! j = Some b → R a b.
Proof.
  intros Hl. revert i j. induction Hl as [|x l Hl IH Hx]; intros i j Hij Hi Hj.
  - done.
  - destruct j as [|j]; [lia|]. simpl in Hj. destruct i as [|i]; simpl in Hi.
    + inv Hi. rewrite Forall_forall in Hx. apply Hx.
      by eapply list_elem_of_lookup_2.
    + apply (IH i j); [lia|done..].
Qed.

Lemma StronglySorted_fmap_inv {A B} (f : A → B) (R : relation B) (l : list A) :
  StronglySorted R (f <$> l) → StronglySorted (λ x y, R (f x) (f y)) l.
Proof.
  induction l as [|x l IH]; [constructor|]. csimpl.
  intros [Hx Hl]%StronglySorted_cons. constructor; [by apply IH|].
  by rewrite Forall_fmap in Hx.
Qed.

(** ** The store *)

Lemma deref_allocated σ l : allocated σ l → deref σ l = Some ((σ !!!.) <$> l).
Proof.
  intros H. apply mapM_Some, Forall2_fmap_r, Forall_Forall2_diag.
  eapply Forall_impl; [exact H|]. intros r [b Hb]. simpl.
  by rewrite (lookup_total_correct _ _ _ Hb).
Qed.

Lemma deref_Some_allocated σ l bs : deref σ l = Some bs → allocated σ l.
Proof.
  intros H%mapM_Some. unfold allocated.
  induction H; constructor; eauto.
Qed.

Lemma deref_Some σ l bs :
  deref σ l = Some bs ↔ allocated σ l ∧ bs = (σ !!!.) <$> l.
Proof.
  split.
  - intros H. pose proof (deref_Some_allocated _ _ _ H) as Hal.
    rewrite (deref_allocated _ _ Hal) in H. by inv H.
  - intros [Hal ->]. by apply deref_allocated.
Qed.

Lemma keyed_allocated σ l : allocated σ l → keyed σ l = Some (key_of σ <$> l).
Proof.
  intros H. apply mapM_Some, Forall2_fmap_r, Forall_Forall2_diag.
  eapply Forall_impl; [exact H|]. intros r [b Hb]. simpl.
  unfold key_of. by rewrite Hb, (lookup_total_correct _ _ _ Hb).
Qed.

Lemma keyed_Some_allocated σ l ks : keyed σ l = Some ks → allocated σ l.
Proof.
  intros H%mapM_Some. unfold allocated.
  induction H as [|r kr l ks Hr _ IH]; constructor; [|done].
  destruct (σ !! r); [eauto | done].
Qed.

Lemma generate_boarding_sequence_allocated σ l :
  allocated σ l →
  generate_boarding_sequence σ l =
    Some (sorted_locs σ l, assign_sequence 1 (sorted_locs σ l) σ).
Proof.
  intros H. unfold generate_boarding_sequence. by rewrite keyed_allocated.
Qed.

Lemma generate_boarding_sequence_Some σ l l' σ' :
  generate_boarding_sequence σ l = Some (l', σ') →
  allocated σ l ∧ l' = sorted_locs σ l ∧ σ' = assign_sequence 1 l' σ.
Proof.
  unfold generate_boarding_sequence. intros H.
  destruct (keyed σ l) as [ks|] eqn:Hks; [|done].
  pose proof (keyed_Some_allocated _ _ _ Hks) as Hal.
  rewrite keyed_allocated in Hks by done. inv Hks. simpl in H. by inv H.
Qed.

Lemma sorted_locs_perm σ l : sorted_locs σ l ≡ₚ l.
Proof.
  unfold sorted_locs. rewrite sort_keyed_perm, <- list_fmap_compose.
  by rewrite list_fmap_id.
Qed.

Lemma sort_keyed_key_of σ l :
  sort_keyed (key_of σ <$> l) = key_of σ <$> sorted_locs σ l.
Proof.
  unfold sorted_locs. rewrite <- list_fmap_compose.
  symmetry. etrans; [|apply list_fmap_id]. apply Forall_fmap_ext.
  rewrite sort_keyed_perm, Forall_fmap. by apply Forall_true.
Qed.

Lemma allocated_perm σ l1 l2 : l1 ≡ₚ l2 → allocated σ l1 → allocated σ l2.
Proof. unfold allocated. by intros ->. Qed.

(** The objects of the result are in the order of their keys. *)
Lemma sorted_locs_sorted σ l :
  StronglySorted (λ r1 r2, key_le (sort_key (σ !!! r1)) (sort_key (σ !!! r2)))
    (sorted_locs σ l).
Proof.
  apply (StronglySorted_fmap_inv (key_of σ) keyed_le).
  rewrite <- sort_keyed_key_of. apply sort_keyed_sorted.
Qed.

(** The loop over the sorted list, object by object. *)
Lemma final_seq_not_in seq l r : r ∉ l → final_seq seq l r = None.
Proof.
  revert seq. induction l as [|r' l IH]; intros seq Hr; [done|]. simpl.
  apply not_elem_of_cons in Hr as [Hne Hr]. rewrite IH by done.
  by rewrite decide_False.
Qed.

Lemma final_seq_in seq l r : r ∈ l → is_Some (final_seq seq l r).
Proof.
  revert seq. induction l as [|r' l IH]; intros seq Hr; [by inv Hr|]. simpl.
  destruct (final_seq (seq + 1) l r) eqn:Hl; [eauto|].
  apply elem_of_cons in Hr as [->|Hr].
  - rewrite decide_True by done. eauto.
  - destruct (IH (seq + 1) Hr) as [k Hk]. congruence.
Qed.

Lemma final_seq_NoDup seq l i r :
  NoDup l → l !! i = Some r → final_seq seq l r = Some (seq + Z.of_nat i).
Proof.
  intros Hnd. revert seq i.
  induction Hnd as [|r' l Hr' Hnd IH]; intros seq i Hi; [done|]. simpl.
  destruct i as [|i]; simpl in Hi.
  - inv Hi. rewrite final_seq_not_in by done.
    rewrite decide_True by done. f_equal. lia.
  - rewrite (IH (seq + 1) i Hi). f_equal. lia.
Qed.

Lemma assign_sequence_lookup l : ∀ seq σ r,
  assign_sequence seq l σ !! r =
    match final_seq seq l r with
    | Some k => set_sequence k <$> σ !! r
    | None => σ !! r
    end.
Proof.
  induction l as [|r' l IH]; intros seq σ r; [done|]. simpl. rewrite IH.
  destruct (decide (r' = r)) as [->|Hne].
  - rewrite lookup_alter_eq.
    destruct (final_seq (seq + 1) l r); [|done]. by destruct (σ !! r).
  - rewrite lookup_alter_ne by done.
    by destruct (final_seq (seq + 1) l r).
Qed.

(** The loop leaves in every object what it was made of, and leaves alone
    the objects that are not in the list. *)
Lemma assign_sequence_data seq l σ r :
  booking_data <$> assign_sequence seq l σ !! r = booking_data <$> σ !! r.
Proof.
  rewrite assign_sequence_lookup.
  destruct (final_seq seq l r); [|done]. by destruct (σ !! r).
Qed.

Lemma assign_sequence_not_in seq l σ r :
  r ∉ l → assign_sequence seq l σ !! r = σ !! r.
Proof. intros H. by rewrite assign_sequence_lookup, final_seq_not_in. Qed.

Lemma assign_sequence_allocated seq l σ l0 :
  allocated σ l0 → allocated (assign_sequence seq l σ) l0.
Proof.
  unfold allocated. intros H. eapply Forall_impl; [exact H|]. intros r [b Hb].
  rewrite assign_sequence_lookup, Hb. destruct (final_seq seq l r); eauto.
Qed.

(** Two stores whose objects are made of the same things give every object
    the same key. *)
Lemma sort_key_data b1 b2 : booking_data b1 = booking_data b2 → sort_key b1 = sort_key b2.
Proof. unfold booking_data, sort_key. by intros [= -> _ ->]. Qed.

Lemma key_of_data σ1 σ2 r :
  is_Some (σ1 !! r) →
  booking_data <$> σ2 !! r = booking_data <$> σ1 !! r →
  key_of σ2 r = key_of σ1 r.
Proof.
  intros [b1 Hb1] H. rewrite Hb1 in H.
  destruct (σ2 !! r) as [b2|] eqn:Hb2; [|done]. simpl in H.
  assert (booking_data b2 = booking_data b1) by congruence.
  unfold key_of. rewrite (lookup_total_correct _ _ _ Hb1), (lookup_total_correct _ _ _ Hb2).
  f_equal. by apply sort_key_data.
Qed.

Lemma lookup_total_data (σ1 σ2 : gmap loc Booking) (r : loc) :
  is_Some (σ1 !! r) →
  booking_data <$> σ2 !! r = booking_data <$> σ1 !! r →
  booking_data (σ2 !!! r) = booking_data (σ1 !!! r).
Proof.
  intros [b1 Hb1] H. rewrite Hb1 in H.
  destruct (σ2 !! r) as [b2|] eqn:Hb2; [|done]. simpl in H.
  rewrite (lookup_total_correct _ _ _ Hb1), (lookup_total_correct _ _ _ Hb2).
  congruence.
Qed.

Lemma NoDup_fmap_elem_inj {A B} (f : A → B) (l : list A) x y :
  NoDup (f <$> l) → x ∈ l → y ∈ l → f x = f y → x = y.
Proof.
  intros Hnd [i Hi]%list_elem_of_lookup_1 [j Hj]%list_elem_of_lookup_1 Hf.
  assert (i = j) as ->; [|congruence].
  apply (NoDup_lookup (f <$> l) i j (f x)); [done|..];
    rewrite list_lookup_fmap; [by rewrite Hi | by rewrite Hj, Hf].
Qed.

(** ** The sequencer *)

(** C1. When the booking identifiers of the input are pairwise distinct,
    the sequencer returns a list in which, whenever booking [A] stands
    before booking [B], either [A] has the larger max-distance, or both
    have the same and [A] has the smaller identifier. *)
Theorem generate_boarding_sequence_order
    (σ : gmap loc Booking) (l : list loc) (bs : list Booking) :
  deref σ l = Some bs →
  NoDup (booking_id <$> bs) →
  ∃ l' σ' bs',
    generate_boarding_sequence σ l = Some (l', σ') ∧
    deref σ' l' = Some bs' ∧
    ∀ i j A B, (i < j)%nat → bs' !! i = Some A → bs' !! j = Some B →
               boards_before A B.
Proof.
  intros [Hal ->]%deref_Some Hnd.
  set (l' := sorted_locs σ l). set (σ' := assign_sequence 1 l' σ).
  assert (Hal' : allocated σ l').
  { eapply allocated_perm; [symmetry; apply sorted_locs_perm | done]. }
  exists l', σ', ((σ' !!!.) <$> l'). split; [|split].
  - by apply generate_boarding_sequence_allocated.
  - by apply deref_allocated, assign_sequence_allocated.
  - intros i j A B Hij HA HB.
    rewrite list_lookup_fmap in HA, HB.
    destruct (l' !! i) as [ri|] eqn:Hi; [|done].
    destruct (l' !! j) as [rj|] eqn:Hj; [|done].
    simpl in HA, HB. apply (inj Some) in HA, HB. subst A B.
    assert (Hdata : ∀ r, r ∈ l' → booking_data (σ' !!! r) = booking_data (σ !!! r)).
    { intros r Hr. apply lookup_total_data.
      - unfold allocated in Hal'. rewrite Forall_forall in Hal'. auto.
      - apply assign_sequence_data. }
    pose proof (Hdata ri (list_elem_of_lookup_2 _ _ _ Hi)) as Hri.
    pose proof (Hdata rj (list_elem_of_lookup_2 _ _ _ Hj)) as Hrj.
    pose proof (StronglySorted_lookup _ _ i j ri rj (sorted_locs_sorted σ l) Hij Hi Hj) as Hle.
    assert (Hid : booking_id (σ !!! ri) ≠ booking_id (σ !!! rj)).
    { intros Heq. rewrite <- list_fmap_compose in Hnd.
      rewrite <- (sorted_locs_perm σ l) in Hnd. fold l' in Hnd.
      assert (i = j); [|lia].
      apply (NoDup_lookup _ i j (booking_id (σ !!! ri)) Hnd);
        rewrite list_lookup_fmap; [by rewrite Hi | by rewrite Hj, Heq]. }
    unfold booking_data in Hri, Hrj.
    injection Hri as Hid_i _ Hd_i. injection Hrj as Hid_j _ Hd_j.
    unfold boards_before. unfold key_le, sort_key in Hle. simpl in Hle.
    destruct Hle as [?|[? ?]]; [left|right]; lia.
Qed.

Lemma generate_boarding_sequence_order_witness :
  ∃ l' σ' bs',
    generate_boarding_sequence (alloc test_bookings 1%positive ∅).2
      (alloc test_bookings 1%positive ∅).1 = Some (l', σ') ∧
    deref σ' l' = Some bs' ∧
    ∀ i j A B, (i < j)%nat → bs' !! i = Some A → bs' !! j = Some B →
               boards_before A B.
Proof.
  apply (generate_boarding_sequence_order _ _ test_bookings).
  - vm_compute. reflexivity.
  - apply (bool_decide_unpack _). vm_compute. exact I.
Defined.

(** C2, as stated, fails: when one dictionary stands twice in the input
    list, the loop writes its sequence number twice, and both entries of the
    result read 2. *)
Lemma generate_boarding_sequence_shared_object :
  ¬ (∀ (σ : gmap loc Booking) (l : list loc),
       allocated σ l → numbered_permutation σ l).
Proof.
  intros H.
  destruct (H {[1%positive := mkBooking 101 [str:"A1"] 1 None]}
              [1%positive; 1%positive])
    as (l' & σ' & bs' & Hg & _ & _ & Hd & Hs).
  - repeat constructor; by eexists.
  - vm_compute in Hg. injection Hg as <- <-.
    vm_compute in Hd. injection Hd as <-.
    vm_compute in Hs. discriminate.
Qed.

Lemma sequence_assigned (σ : gmap loc Booking) (l' : list loc) :
  allocated σ l' → NoDup l' →
  sequence <$> ((assign_sequence 1 l' σ !!!.) <$> l') =
  Some <$> seqZ 1 (Z.of_nat (length l')).
Proof.
  intros Hal Hnd. apply list_eq. intros i.
  rewrite !list_lookup_fmap.
  destruct (l' !! i) as [r|] eqn:Hi; simpl.
  - pose proof (lookup_lt_Some _ _ _ Hi) as Hlt.
    rewrite lookup_seqZ_lt by lia. simpl. do 2 f_equal.
    unfold allocated in Hal. rewrite Forall_forall in Hal.
    destruct (Hal r (list_elem_of_lookup_2 _ _ _ Hi)) as [b Hb].
    erewrite lookup_total_correct; last first.
    { rewrite assign_sequence_lookup, (final_seq_NoDup _ _ _ _ Hnd Hi), Hb. done. }
    done.
  - apply lookup_ge_None in Hi. rewrite lookup_seqZ_ge by lia. done.
Qed.

(** C2, amended. The sequencer returns a permutation of the input, of the
    same length, for every list; when no dictionary stands twice in the
    list, the sequence numbers read 1, 2, ..., N in the order of the
    result; and on the empty list it returns the empty list and changes
    nothing. *)
Theorem generate_boarding_sequence_numbers (σ : gmap loc Booking) (l : list loc) :
  allocated σ l →
  (∃ l' σ' bs',
     generate_boarding_sequence σ l = Some (l', σ') ∧
     l' ≡ₚ l ∧ length l' = length l ∧
     deref σ' l' = Some bs' ∧
     (NoDup l → sequence <$> bs' = Some <$> seqZ 1 (Z.of_nat (length l)))) ∧
  generate_boarding_sequence σ [] = Some ([], σ).
Proof.
  intros Hal. split; [|done].
  set (l' := sorted_locs σ l).
  assert (Hperm : l' ≡ₚ l) by apply sorted_locs_perm.
  assert (Hal' : allocated σ l') by (by eapply allocated_perm).
  exists l', (assign_sequence 1 l' σ), ((assign_sequence 1 l' σ !!!.) <$> l').
  split; [by apply generate_boarding_sequence_allocated|].
  split; [done|]. split; [by rewrite Hperm|]. split.
  - by apply deref_allocated, assign_sequence_allocated.
  - intros Hnd. rewrite <- (Permutation_length Hperm).
    apply sequence_assigned; [done|]. by rewrite Hperm.
Qed.

Lemma generate_boarding_sequence_numbers_witness :
  numbered_permutation (alloc test_bookings 1%positive ∅).2
    (alloc test_bookings 1%positive ∅).1.
Proof.
  destruct (generate_boarding_sequence_numbers
              (alloc test_bookings 1%positive ∅).2
              (alloc test_bookings 1%positive ∅).1)
    as [(l' & σ' & bs' & Hg & Hperm & Hlen & Hd & Hseq) _].
  - apply (bool_decide_unpack _). vm_compute. exact I.
  - exists l', σ', bs'. repeat (split; [assumption|]).
    apply Hseq. apply (bool_decide_unpack _). vm_compute. exact I.
Defined.

(** C9. Sequencing leaves in every booking its identifier, its seats and
    its max-distance: the bookings of the input list read the same in these
    three fields after it as before, and so does every object of the store;
    an object of the list differs from what it was by its sequence number
    only, and an object outside the list is not touched. *)
Theorem generate_boarding_sequence_frame
    (σ : gmap loc Booking) (l : list loc) (bs : list Booking) :
  deref σ l = Some bs →
  ∃ l' σ' bs',
    generate_boarding_sequence σ l = Some (l', σ') ∧
    deref σ' l = Some bs' ∧
    booking_data <$> bs' = booking_data <$> bs ∧
    (∀ r, booking_data <$> σ' !! r = booking_data <$> σ !! r) ∧
    (∀ r b, σ !! r = Some b → r ∈ l → ∃ k, σ' !! r = Some (set_sequence k b)) ∧
    (∀ r, r ∉ l → σ' !! r = σ !! r).
Proof.
  intros [Hal ->]%deref_Some.
  set (l' := sorted_locs σ l). set (σ' := assign_sequence 1 l' σ).
  assert (Hperm : l' ≡ₚ l) by apply sorted_locs_perm.
  exists l', σ', ((σ' !!!.) <$> l).
  split; [by apply generate_boarding_sequence_allocated|].
  split; [by apply deref_allocated, assign_sequence_allocated|].
  split; [|split; [|split]].
  - rewrite <- !list_fmap_compose. apply Forall_fmap_ext.
    unfold allocated in Hal. eapply Forall_impl; [exact Hal|].
    intros r Hr. simpl. apply lookup_total_data; [done|].
    apply assign_sequence_data.
  - intros r. apply assign_sequence_data.
  - intros r b Hb Hr. unfold σ'. rewrite assign_sequence_lookup, Hb.
    destruct (final_seq_in 1 l' r) as [k ->]; [by rewrite Hperm|]. eauto.
  - intros r Hr. apply assign_sequence_not_in. by rewrite Hperm.
Qed.

Lemma generate_boarding_sequence_frame_witness :
  ∃ l' σ' bs',
    generate_boarding_sequence (alloc test_bookings 1%positive ∅).2
      (alloc test_bookings 1%positive ∅).1 = Some (l', σ') ∧
    deref σ' (alloc test_bookings 1%positive ∅).1 = Some bs' ∧
    booking_data <$> bs' = booking_data <$> test_bookings.
Proof.
  destruct (generate_boarding_sequence_frame
              (alloc test_bookings 1%positive ∅).2
              (alloc test_bookings 1%positive ∅).1 test_bookings)
    as (l' & σ' & bs' & Hg & Hd & Hdata & _).
  - vm_compute. reflexivity.
  - exists l', σ', bs'. auto.
Defined.

Lemma strip_sequence_lookup l (σ : gmap loc Booking) r :
  strip_sequence l σ !! r =
    if decide (r ∈ l) then clear_sequence <$> σ !! r else σ !! r.
Proof.
  induction l as [|r' l IH].
  { rewrite decide_False; [done | by apply not_elem_of_nil]. }
  change (strip_sequence (r' :: l) σ)
    with (alter clear_sequence r' (strip_sequence l σ)).
  destruct (decide (r' = r)) as [->|Hne].
  - rewrite lookup_alter_eq, IH, (decide_True (P := r ∈ r :: l)) by left.
    destruct (decide (r ∈ l)); [|done]. by destruct (σ !! r).
  - rewrite lookup_alter_ne, IH by done.
    destruct (decide (r ∈ l)) as [Hr|Hr].
    + rewrite (decide_True (P := r ∈ r' :: l)); [done | by right].
    + rewrite (decide_False (P := r ∈ r' :: l)); [done|].
      intros [?|?]%elem_of_cons; congruence.
Qed.

Lemma strip_sequence_data l (σ : gmap loc Booking) r :
  booking_data <$> strip_sequence l σ !! r = booking_data <$> σ !! r.
Proof.
  rewrite strip_sequence_lookup.
  destruct (decide (r ∈ l)); [|done]. by destruct (σ !! r).
Qed.

(** The order [sorted] puts a list in depends on what its objects are made
    of only. *)
Lemma sorted_locs_data (σ σ2 : gmap loc Booking) (l : list loc) :
  allocated σ l →
  (∀ r, booking_data <$> σ2 !! r = booking_data <$> σ !! r) →
  sorted_locs σ2 l = sorted_locs σ l.
Proof.
  intros Hal Hdata. unfold sorted_locs. do 2 f_equal.
  apply Forall_fmap_ext. eapply Forall_impl; [exact Hal|].
  intros r Hr. by apply key_of_data.
Qed.

Lemma allocated_data (σ σ2 : gmap loc Booking) (l : list loc) :
  allocated σ l →
  (∀ r, booking_data <$> σ2 !! r = booking_data <$> σ !! r) →
  allocated σ2 l.
Proof.
  intros Hal Hdata. unfold allocated in *. eapply Forall_impl; [exact Hal|].
  intros r [b Hb]. specialize (Hdata r). rewrite Hb in Hdata.
  destruct (σ2 !! r); [eauto | done].
Qed.

Lemma allocated_sorted_locs σ l : allocated σ l → allocated σ (sorted_locs σ l).
Proof.
  apply allocated_perm. symmetry. apply sorted_locs_perm.
Qed.

(** Sorting again, from a store whose objects are made of the same things,
    the list the sequencer returned. *)
Lemma sorted_locs_again (σ σ2 : gmap loc Booking) (l : list loc) :
  allocated σ l →
  (∀ r, booking_data <$> σ2 !! r = booking_data <$> σ !! r) →
  sorted_locs σ2 (sorted_locs σ l) = sorted_locs σ l.
Proof.
  intros Hal Hdata.
  rewrite (sorted_locs_data σ) by auto using allocated_sorted_locs.
  unfold sorted_locs at 1.
  rewrite <- sort_keyed_key_of, sort_keyed_id by apply sort_keyed_sorted.
  done.
Qed.

Lemma assign_assign (σ : gmap loc Booking) (l : list loc) :
  assign_sequence 1 l (assign_sequence 1 l σ) = assign_sequence 1 l σ.
Proof.
  apply map_eq. intros r. rewrite !assign_sequence_lookup.
  destruct (final_seq 1 l r); [|done]. by destruct (σ !! r).
Qed.

Lemma assign_strip_assign (σ : gmap loc Booking) (l : list loc) :
  assign_sequence 1 l (strip_sequence l (assign_sequence 1 l σ)) =
  assign_sequence 1 l σ.
Proof.
  apply map_eq. intros r.
  rewrite assign_sequence_lookup, strip_sequence_lookup, assign_sequence_lookup.
  destruct (decide (r ∈ l)) as [Hr|Hr].
  - destruct (final_seq_in 1 l r Hr) as [k ->]. by destruct (σ !! r).
  - by rewrite final_seq_not_in.
Qed.

(** C6. The sequencer is idempotent: run again on the list it returned,
    the sequence numbers removed from its bookings, it returns the same
    bookings in the same order, with the same sequence numbers; and so it
    does when the sequence numbers are left in place. *)
Theorem generate_boarding_sequence_idempotent (σ : gmap loc Booking) (l : list loc) :
  allocated σ l →
  ∃ l' σ',
    generate_boarding_sequence σ l = Some (l', σ') ∧
    generate_boarding_sequence (strip_sequence l' σ') l' = Some (l', σ') ∧
    generate_boarding_sequence σ' l' = Some (l', σ').
Proof.
  intros Hal.
  set (l' := sorted_locs σ l). set (σ' := assign_sequence 1 l' σ).
  exists l', σ'. split; [by apply generate_boarding_sequence_allocated|].
  assert (Hl' : allocated σ l') by by apply allocated_sorted_locs.
  assert (Hdata : ∀ r, booking_data <$> strip_sequence l' σ' !! r
                       = booking_data <$> σ !! r).
  { intros r. unfold σ'. by rewrite strip_sequence_data, assign_sequence_data. }
  assert (Hdata' : ∀ r, booking_data <$> σ' !! r = booking_data <$> σ !! r).
  { intros r. apply assign_sequence_data. }
  assert (Hagain : ∀ σ2, (∀ r, booking_data <$> σ2 !! r = booking_data <$> σ !! r) →
                         sorted_locs σ2 l' = l').
  { intros σ2 H2. by apply sorted_locs_again. }
  split.
  - rewrite generate_boarding_sequence_allocated by by eapply allocated_data.
    rewrite Hagain by done. unfold σ'. by rewrite assign_strip_assign.
  - rewrite generate_boarding_sequence_allocated by by eapply allocated_data.
    rewrite Hagain by done. unfold σ'. by rewrite assign_assign.
Qed.

Lemma generate_boarding_sequence_idempotent_witness :
  ∃ l' σ',
    generate_boarding_sequence (alloc test_bookings 1%positive ∅).2
      (alloc test_bookings 1%positive ∅).1 = Some (l', σ') ∧
    generate_boarding_sequence (strip_sequence l' σ') l' = Some (l', σ') ∧
    generate_boarding_sequence σ' l' = Some (l', σ').
Proof.
  apply generate_boarding_sequence_idempotent.
  apply (bool_decide_unpack _). vm_compute. exact I.
Defined.

(** The order of the result does not depend on the order of the input when
    the identifiers are pairwise distinct. *)
Lemma sorted_locs_perm_eq (σ : gmap loc Booking) (l1 l2 : list loc) :
  NoDup ((λ r, booking_id (σ !!! r)) <$> l1) → l1 ≡ₚ l2 →
  sorted_locs σ l1 = sorted_locs σ l2.
Proof.
  intros Hnd Hperm. unfold sorted_locs. f_equal.
  apply (StronglySorted_unique_strong keyed_le).
  - intros x1 x2 Hx1 Hx2 H12 H21.
    rewrite sort_keyed_perm in Hx1, Hx2.
    apply list_elem_of_fmap in Hx1 as (r1 & -> & Hr1).
    apply list_elem_of_fmap in Hx2 as (r2 & -> & Hr2).
    rewrite <- Hperm in Hr2.
    pose proof (key_le_antisym _ _ H12 H21) as Hkey.
    unfold key_of, sort_key in Hkey. simpl in Hkey.
    assert (r1 = r2) as ->; [|done].
    apply (NoDup_fmap_elem_inj _ _ _ _ Hnd Hr1 Hr2). congruence.
  - apply sort_keyed_sorted.
  - apply sort_keyed_sorted.
  - by rewrite !sort_keyed_perm, Hperm.
Qed.

(** C7. When the booking identifiers are pairwise distinct, the sequencer
    applied to a list and to any permutation of it produces the same
    sequence of triples (identifier, max-distance, sequence number): the
    two runs return the same list and the same store, whether the second
    starts from the store the first started from or from the one it left. *)
Theorem generate_boarding_sequence_input_order
    (σ : gmap loc Booking) (l1 l2 : list loc) (bs : list Booking) :
  deref σ l1 = Some bs →
  NoDup (booking_id <$> bs) →
  l1 ≡ₚ l2 →
  ∃ l' σ' ts,
    generate_boarding_sequence σ l1 = Some (l', σ') ∧
    generate_boarding_sequence σ l2 = Some (l', σ') ∧
    generate_boarding_sequence σ' l2 = Some (l', σ') ∧
    boarding_report σ l1 = Some ts ∧
    boarding_report σ l2 = Some ts ∧
    boarding_report σ' l2 = Some ts ∧
    length ts = length l1.
Proof.
  intros [Hal ->]%deref_Some Hnd Hperm.
  rewrite <- list_fmap_compose in Hnd.
  set (l' := sorted_locs σ l1). set (σ' := assign_sequence 1 l' σ).
  assert (Hal2 : allocated σ l2) by (by eapply allocated_perm).
  assert (Hl' : allocated σ l') by by apply allocated_sorted_locs.
  assert (Hdata' : ∀ r, booking_data <$> σ' !! r = booking_data <$> σ !! r).
  { intros r. apply assign_sequence_data. }
  assert (H1 : generate_boarding_sequence σ l1 = Some (l', σ')).
  { by apply generate_boarding_sequence_allocated. }
  assert (H2 : generate_boarding_sequence σ l2 = Some (l', σ')).
  { rewrite generate_boarding_sequence_allocated by done.
    by rewrite <- (sorted_locs_perm_eq σ l1 l2). }
  assert (H3 : generate_boarding_sequence σ' l2 = Some (l', σ')).
  { rewrite generate_boarding_sequence_allocated by by eapply allocated_data.
    rewrite (sorted_locs_data σ), <- (sorted_locs_perm_eq σ l1 l2) by done.
    fold l'. unfold σ'. by rewrite assign_assign. }
  exists l', σ'. unfold boarding_report. rewrite H1, H2, H3.
  rewrite deref_allocated by (by apply assign_sequence_allocated).
  eexists. repeat (split; [done|]).
  unfold l'. by rewrite !length_fmap, sorted_locs_perm.
Qed.

Lemma generate_boarding_sequence_input_order_witness :
  ∃ ts,
    boarding_report (alloc test_bookings 1%positive ∅).2 [1; 2; 3; 4]%positive
      = Some ts ∧
    boarding_report (alloc test_bookings 1%positive ∅).2 [3; 1; 4; 2]%positive
      = Some ts ∧
    length ts = 4%nat.
Proof.
  destruct (generate_boarding_sequence_input_order
              (alloc test_bookings 1%positive ∅).2
              [1; 2; 3; 4]%positive [3; 1; 4; 2]%positive test_bookings)
    as (l' & σ' & ts & _ & _ & _ & Hts1 & Hts2 & _ & Hlen).
  - vm_compute. reflexivity.
  - apply (bool_decide_unpack _). vm_compute. exact I.
  - apply (bool_decide_unpack _). vm_compute. exact I.
  - exists ts. auto.
Defined.

(** * Further properties of the program *)

(** ** The seat parser and the distances *)

Lemma re_match_seat_prefix t :
  Str.re_match_seat t = None ↔ has_seat_prefix t = false.
Proof.
  destruct t as [|c [|d t]]; simpl.
  - done.
  - by destruct (Str.is_AZ c).
  - destruct (Str.is_AZ c); [|done]. simpl.
    destruct (Str.isdigit d); [|done].
    destruct (Str.span_digits t). done.
Qed.







Lemma get_seat_distance_nonneg s d : get_seat_distance s = inr d → 0 ≤ d.
Proof.
  unfold get_seat_distance.
  destruct (parse_seat s) as [e|[L n]] eqn:Hp; [done|]. simpl. intros [= <-].
  by eapply parse_seat_inr_nonneg.
Qed.

Lemma max_loop_inr seats : ∀ cur m,
  max_loop cur seats = inr m →
  ∃ ds, Forall2 (λ s d, get_seat_distance s = inr d) seats ds.
Proof.
  induction seats as [|s seats IH]; intros cur m; simpl.
  - intros _. by exists [].
  - destruct (get_seat_distance s) as [e|d] eqn:Hs; [done|]. simpl.
    intros [ds Hds]%IH. exists (d :: ds). by constructor.
Qed.

(** When [get_booking_max_distance] returns, and only then, there is a seat,
    every seat has a distance, and the value is the largest of them. *)
Lemma get_booking_max_distance_inr_iff seats m :
  get_booking_max_distance seats = inr m ↔
  seats ≠ [] ∧
  Forall (λ s, ∃ d, get_seat_distance s = inr d ∧ d ≤ m) seats ∧
  Exists (λ s, get_seat_distance s = inr m) seats.
Proof.
  split.
  - destruct seats as [|s rest]; [done|]. simpl.
    destruct (get_seat_distance s) as [e|d] eqn:Hs; [done|]. simpl. intros Hm.
    destruct (max_loop_inr _ _ _ Hm) as [ds Hds].
    destruct (max_loop_spec rest ds d Hds) as (m' & Hm' & Hin & Hle).
    rewrite Hm in Hm'. injection Hm' as <-.
    assert (Hall : Forall2 (λ s d, get_seat_distance s = inr d) (s :: rest) (d :: ds))
      by by constructor.
    split; [done|]. split.
    + clear Hin. induction Hall as [|s' d' ss' ds' Hs' _ IH]; [constructor|].
      apply Forall_cons in Hle as [Hd' Hle]. constructor; eauto.
    + clear Hle. induction Hall as [|s' d' ss' ds' Hs' _ IH]; [by inv Hin|].
      apply elem_of_cons in Hin as [->|Hin]; [by left | right; auto].
  - intros (Hne & Hall & Hex).
    assert (∃ ds, Forall2 (λ s d, get_seat_distance s = inr d) seats ds ∧
                  Forall (λ d, d ≤ m) ds) as (ds & Hds & Hle).
    { clear Hne Hex. induction Hall as [|s rest (d & Hd & Hdm) _ (ds & ? & ?)].
      - by exists [].
      - exists (d :: ds). split; by constructor. }
    assert (Hin : m ∈ ds).
    { clear Hne Hall Hle. induction Hds as [|s d rest ds Hs _ IH]; [by inv Hex|].
      apply Exists_cons in Hex as [Hm|Hex].
      - assert (d = m) as -> by congruence. by left.
      - right. auto. }
    destruct Hds as [|s d rest ds Hs Hds]; [done|]. simpl. rewrite Hs. simpl.
    destruct (max_loop_spec rest ds d Hds) as (m' & -> & Hin' & Hle').
    f_equal. rewrite Forall_forall in Hle, Hle'.
    apply Z.le_antisymm; auto.
Qed.

Lemma get_booking_max_distance_inr seats m :
  get_booking_max_distance seats = inr m →
  seats ≠ [] ∧ 0 ≤ m ∧
  Forall (λ s, ∃ d, get_seat_distance s = inr d ∧ 0 ≤ d ≤ m) seats ∧
  Exists (λ s, get_seat_distance s = inr m) seats.
Proof.
  intros (Hne & Hall & Hex)%get_booking_max_distance_inr_iff.
  split; [done|]. split; [|split; [|done]].
  - apply Exists_exists in Hex as (s & _ & Hs).
    by eapply get_seat_distance_nonneg.
  - eapply Forall_impl; [exact Hall|]. intros s (d & Hd & Hle).
    exists d. split; [done|]. split; [|done]. by eapply get_seat_distance_nonneg.
Qed.

(** X2. When [get_booking_max_distance] returns a distance there is at least
    one seat, every seat has a distance between 0 and the value returned,
    and the value is the distance of one of the seats. *)
Theorem get_booking_max_distance_returns (seats : list (list ascii)) (m : Z) :
  get_booking_max_distance seats = inr m →
  seats ≠ [] ∧ 0 ≤ m ∧
  Forall (λ s, ∃ d, get_seat_distance s = inr d ∧ 0 ≤ d ≤ m) seats ∧
  Exists (λ s, get_seat_distance s = inr m) seats.
Proof. apply get_booking_max_distance_inr. Qed.

Lemma get_booking_max_distance_returns_witness :
  [str:"A20"; str:"c2"] ≠ [] ∧ 0 ≤ 20 ∧
  Forall (λ s, ∃ d, get_seat_distance s = inr d ∧ 0 ≤ d ≤ 20) [str:"A20"; str:"c2"] ∧
  Exists (λ s, get_seat_distance s = inr 20) [str:"A20"; str:"c2"].
Proof.
  apply (get_booking_max_distance_returns [str:"A20"; str:"c2"] 20).
  reflexivity.
Defined.

Lemma max_loop_app pre post : ∀ cur,
  max_loop cur (pre ++ post) =
  let* m := max_loop cur pre in max_loop m post.
Proof.
  induction pre as [|s pre IH]; intros cur; [done|]. simpl.
  destruct (get_seat_distance s) as [e|d]; [done|]. simpl. apply IH.
Qed.

Lemma get_seat_distance_no_prefix bad :
  has_seat_prefix (normalize bad) = false →
  get_seat_distance bad = inl (ValueError_invalid_seat (normalize bad)).
Proof.
  intros H. unfold get_seat_distance.
  by rewrite (parse_seat_no_match bad) by by apply re_match_seat_prefix.
Qed.

Lemma max_loop_first_error pre post bad e :
  Forall (λ s, ∃ d, get_seat_distance s = inr d) pre →
  get_seat_distance bad = inl e →
  ∀ cur, max_loop cur (pre ++ bad :: post) = inl e.
Proof.
  intros Hpre Hbad cur. rewrite max_loop_app.
  assert (∃ m, max_loop cur pre = inr m) as [m ->].
  { revert cur. induction Hpre as [|s pre [d Hd] _ IH]; intros cur; simpl.
    - by exists cur.
    - rewrite Hd. simpl. apply IH. }
  simpl. by rewrite Hbad.
Qed.

Lemma get_booking_max_distance_first_error_gen pre post bad e :
  Forall (λ s, ∃ d, get_seat_distance s = inr d) pre →
  get_seat_distance bad = inl e →
  get_booking_max_distance (pre ++ bad :: post) = inl e.
Proof.
  intros Hpre Hbad.
  destruct Hpre as [|s pre [d Hd] Hpre]; simpl.
  - by rewrite Hbad.
  - rewrite Hd. simpl. by apply max_loop_first_error.
Qed.

Lemma get_booking_max_distance_first_error_aux pre post bad :
  Forall (λ s, ∃ d, get_seat_distance s = inr d) pre →
  has_seat_prefix (normalize bad) = false →
  get_booking_max_distance (pre ++ bad :: post) =
    inl (ValueError_invalid_seat (normalize bad)).
Proof.
  intros Hpre Hbad. apply get_booking_max_distance_first_error_gen; [done|].
  by apply get_seat_distance_no_prefix.
Qed.

(** X3. The exception of [get_booking_max_distance] is the one of the first
    seat, in the order of the list, that does not parse: the seats after it
    are not looked at. *)
Theorem get_booking_max_distance_first_error
    (pre post : list (list ascii)) (bad : list ascii) :
  Forall (λ s, ∃ d, get_seat_distance s = inr d) pre →
  has_seat_prefix (normalize bad) = false →
  get_booking_max_distance (pre ++ bad :: post) =
    inl (ValueError_invalid_seat (normalize bad)).
Proof. apply get_booking_max_distance_first_error_aux. Qed.

Lemma get_booking_max_distance_first_error_witness :
  get_booking_max_distance [str:"A1"; str:"12"; str:"??"] =
    inl (ValueError_invalid_seat str:"12").
Proof.
  apply (get_booking_max_distance_first_error [str:"A1"] [str:"??"] str:"12").
  - repeat constructor. by exists 1.
  - reflexivity.
Defined.

(** X4. The distance of a booking does not depend on the order of its
    seats: a list of seats and a permutation of it return the same
    distances. *)
Theorem get_booking_max_distance_perm (seats1 seats2 : list (list ascii)) (m : Z) :
  seats1 ≡ₚ seats2 →
  get_booking_max_distance seats1 = inr m →
  get_booking_max_distance seats2 = inr m.
Proof.
  intros Hperm. rewrite !get_booking_max_distance_inr_iff.
  intros (Hne & Hall & Hex). split; [|split].
  - intros ->. by apply Permutation_nil_r in Hperm.
  - by rewrite <- Hperm.
  - by rewrite <- Hperm.
Qed.

Lemma get_booking_max_distance_perm_witness :
  get_booking_max_distance [str:"B15"; str:"C2"; str:"A1"] = inr 15.
Proof.
  apply (get_booking_max_distance_perm [str:"C2"; str:"A1"; str:"B15"]).
  - apply (bool_decide_unpack _). vm_compute. exact I.
  - reflexivity.
Defined.

(** ** Record ingestion, line by line *)

Lemma readlines_header h body :
  LF ∉ h → readlines (h ++ LF :: body) = (h ++ [LF]) :: readlines body.
Proof.
  induction h as [|c h IH]; intros Hh; [done|].
  apply not_elem_of_cons in Hh as [Hc Hh]. simpl.
  rewrite (proj2 (Ascii.eqb_neq c LF)) by done. by rewrite IH.
Qed.

Lemma readlines_one_line h : LF ∉ h → drop 1 (readlines h) = [].
Proof.
  induction h as [|c h IH]; intros Hh; [done|].
  apply not_elem_of_cons in Hh as [Hc Hh]. simpl.
  rewrite (proj2 (Ascii.eqb_neq c LF)) by done.
  specialize (IH Hh). by destruct (readlines h) as [|? [|??]].
Qed.

(** X5. The first line of the file is never parsed: a file with no line,
    or with one line only, gives the empty list of bookings, and the result
    on a longer file does not depend on what its first line holds. *)
Theorem parse_booking_data_header (h : list ascii) :
  LF ∉ h →
  parse_booking_data [] = inr [] ∧
  parse_booking_data h = inr [] ∧
  (∀ h' body, LF ∉ h' →
     parse_booking_data (h ++ LF :: body) = parse_booking_data (h' ++ LF :: body)).
Proof.
  intros Hh. split; [done|]. split.
  - unfold parse_booking_data. by rewrite readlines_one_line.
  - intros h' body Hh'. unfold parse_booking_data.
    by rewrite !readlines_header.
Qed.

Lemma parse_booking_data_header_witness :
  parse_booking_data (written ["x,y,z"; "101,A1"]) =
  parse_booking_data (written ["Booking_id,Seats"; "101,A1"]).
Proof.
  refine (proj2 (proj2 (parse_booking_data_header str:"x,y,z" _))
            str:"Booking_id,Seats" (written ["101,A1"]) _).
  - apply (bool_decide_unpack _). vm_compute. exact I.
  - apply (bool_decide_unpack _). vm_compute. exact I.
Defined.

Lemma parse_lines_cons raw rest acc :
  parse_lines (raw :: rest) acc =
  if is_record raw
  then let* b := record_of raw in parse_lines rest (acc ++ [b])
  else parse_lines rest acc.
Proof.
  unfold is_record. destruct (blank raw) eqn:Hb; cbn [negb andb].
  { by apply parse_lines_blank. }
  destruct (length (fields raw) <? 2)%nat eqn:Hlen; cbn [negb andb].
  { apply parse_lines_short. unfold insufficient_fields. by rewrite Hb, Hlen. }
  rewrite parse_lines_record; [|done|].
  - unfold record_of.
    destruct (Str.int (hd [] (fields raw))) as [e|id]; [done|]. simpl.
    by destruct (get_booking_max_distance (tail (fields raw))).
  - unfold insufficient_fields. by rewrite Hb, Hlen.
Qed.




(** A blank line above the header is another matter: the header becomes a
    data line, and [int] refuses its first field. *)
Example parse_booking_data_blank_line_on_top :
  parse_booking_data (written ["Booking_id,Seats"; "101,A1"])
    = inr [mkBooking 101 [str:"A1"] 1 None] ∧
  parse_booking_data (written [""; "Booking_id,Seats"; "101,A1"])
    = inl (ValueError_invalid_literal str:"Booking_id").
Proof. split; reflexivity. Qed.

Lemma parse_lines_inr lines : ∀ acc bs,
  parse_lines lines acc = inr bs ↔
  ∃ new, bs = acc ++ new ∧
         Forall2 (λ raw b, record_of raw = inr b)
           (filter (λ raw, is_record raw = true) lines) new.
Proof.
  induction lines as [|raw rest IH]; intros acc bs.
  - simpl. split.
    + intros [= <-]. exists []. by rewrite app_nil_r.
    + intros (new & -> & Hnew). inv Hnew. by rewrite app_nil_r.
  - rewrite parse_lines_cons. destruct (is_record raw) eqn:Hrec.
    + rewrite filter_cons_True by done.
      destruct (record_of raw) as [e|b] eqn:Hb; simpl.
      * split; [done|]. intros (new & _ & Hnew). inv Hnew. congruence.
      * rewrite IH. split.
        -- intros (new & -> & Hnew). exists (b :: new).
           rewrite <- app_assoc. split; [done|]. by constructor.
        -- intros (new & -> & Hnew). inv Hnew.
           match goal with H : record_of raw = inr _ |- _ =>
             rewrite Hb in H; injection H as <- end.
           eexists. rewrite <- app_assoc. split; [done|]. done.
    + rewrite filter_cons_False by (by rewrite Hrec). apply IH.
Qed.


Lemma record_of_inr raw b :
  record_of raw = inr b ↔
  Str.int (hd [] (fields raw)) = inr (booking_id b) ∧
  seats b = tail (fields raw) ∧
  get_booking_max_distance (seats b) = inr (max_distance b) ∧
  sequence b = None.
Proof.
  unfold record_of. split.
  - destruct (Str.int (hd [] (fields raw))) as [e|id]; [done|]. simpl.
    destruct (get_booking_max_distance (tail (fields raw))) as [e|d] eqn:Hd; [done|].
    simpl. by intros [= <-].
  - destruct b as [id ss d sq]. simpl. intros (-> & -> & -> & ->). done.
Qed.

(** X7. The ingestion returns a list exactly when every record line gives
    a booking, and the list is then one booking per record line, in the
    order of the file: its identifier is the integer of the first field,
    its seats are the other fields, trimmed, its max-distance is the one
    of these seats, and it has no sequence number. *)
Theorem parse_booking_data_bookings (text : list ascii) (bs : list Booking) :
  parse_booking_data text = inr bs ↔
  Forall2 (λ raw b,
             Str.int (hd [] (fields raw)) = inr (booking_id b) ∧
             seats b = tail (fields raw) ∧
             get_booking_max_distance (seats b) = inr (max_distance b) ∧
             sequence b = None)
    (filter (λ raw, is_record raw = true) (data_lines text)) bs.
Proof.
  unfold parse_booking_data. fold (data_lines text). rewrite parse_lines_inr.
  split.
  - intros (new & -> & Hnew). simpl.
    eapply Forall2_impl; [exact Hnew|]. intros raw b. by rewrite record_of_inr.
  - intros H. exists bs. split; [done|].
    eapply Forall2_impl; [exact H|]. intros raw b. by rewrite record_of_inr.
Qed.

Lemma parse_lines_invariant lines bs :
  parse_lines lines [] = inr bs →
  Forall (λ b, ∃ raw, raw ∈ lines ∧ is_record raw = true ∧ record_of raw = inr b) bs.
Proof.
  intros (new & -> & Hnew)%parse_lines_inr. simpl.
  remember (filter (λ raw, is_record raw = true) lines) as recs eqn:Hrecs.
  assert (Hsub : ∀ raw, raw ∈ recs → raw ∈ lines ∧ is_record raw = true).
  { intros raw. rewrite Hrecs, list_elem_of_filter. tauto. }
  clear Hrecs. induction Hnew as [|raw b recs new Hb _ IH]; constructor.
  - exists raw. destruct (Hsub raw) as [??]; [left|]. done.
  - apply IH. intros raw' Hr. apply Hsub. by right.
Qed.

Lemma is_record_tail raw : is_record raw = true → tail (fields raw) ≠ [].
Proof.
  unfold is_record. intros [_ Hlen%negb_true_iff]%andb_prop.
  apply Nat.ltb_ge in Hlen. by destruct (fields raw) as [|? [|??]]; simpl in *; try lia.
Qed.

(** X8. Every booking the ingestion returns has at least one seat; each of
    its seats parses, to a distance between 0 and the max-distance of the
    booking; that max-distance is the distance of one of its seats; and the
    booking has no sequence number yet. *)
Theorem parse_booking_data_invariant (text : list ascii) (bs : list Booking) :
  parse_booking_data text = inr bs →
  Forall (λ b,
            seats b ≠ [] ∧ 0 ≤ max_distance b ∧
            Forall (λ s, ∃ d, get_seat_distance s = inr d ∧ 0 ≤ d ≤ max_distance b)
              (seats b) ∧
            Exists (λ s, get_seat_distance s = inr (max_distance b)) (seats b) ∧
            sequence b = None) bs.
Proof.
  intros H%parse_lines_invariant. eapply Forall_impl; [exact H|].
  intros b (raw & _ & _ & (_ & _ & Hd & Hseq)%record_of_inr).
  apply get_booking_max_distance_inr in Hd as (? & ? & ? & ?). done.
Qed.

Lemma parse_booking_data_invariant_witness :
  Forall (λ b,
            seats b ≠ [] ∧ 0 ≤ max_distance b ∧
            Forall (λ s, ∃ d, get_seat_distance s = inr d ∧ 0 ≤ d ≤ max_distance b)
              (seats b) ∧
            Exists (λ s, get_seat_distance s = inr (max_distance b)) (seats b) ∧
            sequence b = None)
    [mkBooking 101 [str:"A1"; str:"B1"] 1 None;
     mkBooking 120 [str:"A20"; str:"C2"] 20 None].
Proof.
  apply (parse_booking_data_invariant
           (written ["Booking_id,Seats"; "101,A1,B1"; "120,A20,C2"])).
  reflexivity.
Defined.










(** ** The sequencer on any input *)

Lemma assign_sequence_total_data (σ : gmap loc Booking) seq l r :
  is_Some (σ !! r) →
  booking_data (assign_sequence seq l σ !!! r) = booking_data (σ !!! r).
Proof.
  intros Hr. apply lookup_total_data; [done|]. apply assign_sequence_data.
Qed.

(** X10. Whatever the identifiers are, repeated or not, the list the
    sequencer returns is in order: when booking [A] stands before booking
    [B], either [A] has the larger max-distance, or both have the same and
    the identifier of [A] is not the larger one. *)
Theorem generate_boarding_sequence_weak_order (σ : gmap loc Booking) (l : list loc) :
  allocated σ l →
  ∃ l' σ' bs',
    generate_boarding_sequence σ l = Some (l', σ') ∧
    deref σ' l' = Some bs' ∧
    ∀ i j A B, (i < j)%nat → bs' !! i = Some A → bs' !! j = Some B →
               boards_no_later A B.
Proof.
  intros Hal.
  set (l' := sorted_locs σ l). set (σ' := assign_sequence 1 l' σ).
  assert (Hal' : allocated σ l') by by apply allocated_sorted_locs.
  exists l', σ', ((σ' !!!.) <$> l'). split; [|split].
  - by apply generate_boarding_sequence_allocated.
  - by apply deref_allocated, assign_sequence_allocated.
  - intros i j A B Hij HA HB.
    rewrite list_lookup_fmap in HA, HB.
    destruct (l' !! i) as [ri|] eqn:Hi; [|done].
    destruct (l' !! j) as [rj|] eqn:Hj; [|done].
    simpl in HA, HB. apply (inj Some) in HA, HB. subst A B.
    unfold allocated in Hal'. rewrite Forall_forall in Hal'.
    pose proof (assign_sequence_total_data σ 1 l' ri
                  (Hal' _ (list_elem_of_lookup_2 _ _ _ Hi))) as Hri.
    pose proof (assign_sequence_total_data σ 1 l' rj
                  (Hal' _ (list_elem_of_lookup_2 _ _ _ Hj))) as Hrj.
    pose proof (StronglySorted_lookup _ _ i j ri rj (sorted_locs_sorted σ l) Hij Hi Hj) as Hle.
    unfold booking_data in Hri, Hrj.
    injection Hri as Hid_i _ Hd_i. injection Hrj as Hid_j _ Hd_j.
    unfold boards_no_later, σ'. unfold key_le, sort_key in Hle. simpl in Hle.
    destruct Hle as [?|[? ?]]; [left|right]; lia.
Qed.

Lemma generate_boarding_sequence_weak_order_witness :
  ∃ l' σ' bs',
    generate_boarding_sequence
      {[1%positive := mkBooking 7 [str:"A3"] 3 None;
        2%positive := mkBooking 7 [str:"B3"] 3 None]}
      [2%positive; 1%positive; 2%positive] = Some (l', σ') ∧
    deref σ' l' = Some bs' ∧
    ∀ i j A B, (i < j)%nat → bs' !! i = Some A → bs' !! j = Some B →
               boards_no_later A B.
Proof.
  apply generate_boarding_sequence_weak_order.
  apply (bool_decide_unpack _). vm_compute. exact I.
Defined.

Global Instance key_of_inj σ : Inj (=) (=) (key_of σ).
Proof. intros r1 r2 H. by apply (f_equal snd) in H. Qed.

Lemma filter_key_of (σ : gmap loc Booking) (k : Z * Z) (l : list loc) :
  allocated σ l →
  filter (λ y : Z * Z * loc, y.1 = k) (key_of σ <$> l) =
  key_of σ <$> filter (λ r, sort_key <$> σ !! r = Some k) l.
Proof.
  induction 1 as [|r l [b Hb] _ IH]; [done|]. csimpl.
  rewrite !filter_cons, IH. unfold key_of at 1 2. simpl.
  rewrite Hb, (lookup_total_correct _ _ _ Hb). simpl.
  destruct (decide (sort_key b = k)) as [->|Hne].
  - by rewrite decide_True.
  - rewrite decide_False; [done|]. by intros [= ?].
Qed.

(** X11. The sort is stable: the bookings of one and the same key (the same
    max-distance and the same identifier) stand in the result in the order
    they had in the input. *)
Theorem generate_boarding_sequence_stable
    (σ : gmap loc Booking) (l : list loc) (k : Z * Z) :
  allocated σ l →
  ∃ l' σ',
    generate_boarding_sequence σ l = Some (l', σ') ∧
    filter (λ r, sort_key <$> σ !! r = Some k) l' =
    filter (λ r, sort_key <$> σ !! r = Some k) l.
Proof.
  intros Hal. eexists _, _. split; [by apply generate_boarding_sequence_allocated|].
  pose proof (sort_keyed_stable k (key_of σ <$> l)) as Hst.
  rewrite sort_keyed_key_of, !filter_key_of in Hst
    by auto using allocated_sorted_locs.
  eapply (inj (fmap (key_of σ))). exact Hst.
Qed.

Lemma generate_boarding_sequence_stable_witness :
  ∃ l' σ',
    generate_boarding_sequence
      {[1%positive := mkBooking 7 [str:"A3"] 3 None;
        2%positive := mkBooking 7 [str:"B3"] 3 None;
        3%positive := mkBooking 5 [str:"B9"] 9 None]}
      [2%positive; 3%positive; 1%positive] = Some (l', σ') ∧
    filter (λ r, sort_key <$>
                   ({[1%positive := mkBooking 7 [str:"A3"] 3 None;
                      2%positive := mkBooking 7 [str:"B3"] 3 None;
                      3%positive := mkBooking 5 [str:"B9"] 9 None]}
                    : gmap loc Booking) !! r = Some (-3, 7)) l' =
    [2%positive; 1%positive].
Proof.
  destruct (generate_boarding_sequence_stable
              {[1%positive := mkBooking 7 [str:"A3"] 3 None;
                2%positive := mkBooking 7 [str:"B3"] 3 None;
                3%positive := mkBooking 5 [str:"B9"] 9 None]}
              [2%positive; 3%positive; 1%positive] (-3, 7))
    as (l' & σ' & Hg & Hf).
  - apply (bool_decide_unpack _). vm_compute. exact I.
  - exists l', σ'. split; [exact Hg|]. rewrite Hf. vm_compute. reflexivity.
Defined.

Lemma set_sequence_data k b1 b2 :
  booking_data b1 = booking_data b2 → set_sequence k b1 = set_sequence k b2.
Proof. unfold booking_data, set_sequence. by intros [= -> -> ->]. Qed.

(** X12. The sequence numbers the bookings may already carry do not count:
    from two stores whose bookings have the same identifiers, seats and
    max-distances, the sequencer returns the same list, and the bookings of
    that list read the same in both results. *)
Theorem generate_boarding_sequence_stale_sequence
    (σ σ2 : gmap loc Booking) (l : list loc) :
  allocated σ l →
  (∀ r, booking_data <$> σ2 !! r = booking_data <$> σ !! r) →
  ∃ l' σ1' σ2' bs',
    generate_boarding_sequence σ l = Some (l', σ1') ∧
    generate_boarding_sequence σ2 l = Some (l', σ2') ∧
    deref σ1' l' = Some bs' ∧ deref σ2' l' = Some bs'.
Proof.
  intros Hal Hdata.
  set (l' := sorted_locs σ l).
  assert (Hl' : allocated σ l') by by apply allocated_sorted_locs.
  exists l', (assign_sequence 1 l' σ), (assign_sequence 1 l' σ2),
    ((assign_sequence 1 l' σ !!!.) <$> l').
  split; [by apply generate_boarding_sequence_allocated|]. split.
  { rewrite generate_boarding_sequence_allocated by by eapply allocated_data.
    by rewrite (sorted_locs_data σ). }
  split; [by apply deref_allocated, assign_sequence_allocated|].
  rewrite deref_allocated
    by (apply assign_sequence_allocated; by eapply allocated_data).
  f_equal. apply Forall_fmap_ext. rewrite Forall_forall. intros r Hr.
  unfold allocated in Hl'. rewrite Forall_forall in Hl'.
  destruct (Hl' r Hr) as [b Hb]. specialize (Hdata r). rewrite Hb in Hdata.
  destruct (σ2 !! r) as [b2|] eqn:Hb2; [|done]. simpl in Hdata.
  assert (Hbb : booking_data b2 = booking_data b) by congruence.
  destruct (final_seq_in 1 l' r Hr) as [k Hk].
  rewrite (lookup_total_correct (assign_sequence 1 l' σ2) r (set_sequence k b2)),
          (lookup_total_correct (assign_sequence 1 l' σ) r (set_sequence k b)).
  - by apply set_sequence_data.
  - by rewrite assign_sequence_lookup, Hk, Hb.
  - by rewrite assign_sequence_lookup, Hk, Hb2.
Qed.

Lemma generate_boarding_sequence_stale_sequence_witness :
  ∃ l' σ1' σ2' bs',
    generate_boarding_sequence
      {[1%positive := mkBooking 101 [str:"A1"] 1 None;
        2%positive := mkBooking 120 [str:"A20"] 20 None]}
      [1%positive; 2%positive] = Some (l', σ1') ∧
    generate_boarding_sequence
      {[1%positive := mkBooking 101 [str:"A1"] 1 (Some 1);
        2%positive := mkBooking 120 [str:"A20"] 20 (Some 9)]}
      [1%positive; 2%positive] = Some (l', σ2') ∧
    deref σ1' l' = Some bs' ∧ deref σ2' l' = Some bs'.
Proof.
  apply generate_boarding_sequence_stale_sequence.
  - apply (bool_decide_unpack _). vm_compute. exact I.
  - intros r. rewrite <- !lookup_fmap. f_equal.
Defined.

Lemma final_seq_Some seq l r v :
  final_seq seq l r = Some v →
  ∃ k, v = seq + Z.of_nat k ∧ l !! k = Some r ∧
       ∀ j, (k < j)%nat → l !! j ≠ Some r.
Proof.
  revert seq. induction l as [|r' l IH]; intros seq; [done|]. simpl.
  destruct (final_seq (seq + 1) l r) as [v'|] eqn:Hl.
  - intros [= <-]. destruct (IH _ Hl) as (k & -> & Hk & Hlast).
    exists (S k). split; [lia|]. split; [done|].
    intros [|j] Hj; [lia|]. simpl. apply Hlast. lia.
  - destruct (decide (r' = r)) as [->|Hne]; [|done]. intros [= <-].
    exists 0%nat. split; [lia|]. split; [done|].
    intros [|j] Hj; [lia|]. simpl. intros Hin.
    assert (Hr : r ∈ l) by by eapply list_elem_of_lookup_2.
    destruct (final_seq_in (seq + 1) l r Hr) as [? ?]. congruence.
Qed.

(** X13. Every booking of the result carries as its sequence number the
    position, counted from 1, of its last occurrence in the result: a
    dictionary that stands once in the list carries its own position, one
    that stands several times carries the last of its positions. *)
Theorem generate_boarding_sequence_last_position
    (σ : gmap loc Booking) (l : list loc) :
  allocated σ l →
  ∃ l' σ',
    generate_boarding_sequence σ l = Some (l', σ') ∧
    ∀ r, r ∈ l' →
      ∃ k, l' !! k = Some r ∧
           (∀ j, (k < j)%nat → l' !! j ≠ Some r) ∧
           sequence <$> σ' !! r = Some (Some (Z.of_nat k + 1)).
Proof.
  intros Hal.
  set (l' := sorted_locs σ l).
  assert (Hl' : allocated σ l') by by apply allocated_sorted_locs.
  exists l', (assign_sequence 1 l' σ).
  split; [by apply generate_boarding_sequence_allocated|].
  intros r Hr. destruct (final_seq_in 1 l' r Hr) as [v Hv].
  destruct (final_seq_Some _ _ _ _ Hv) as (k & -> & Hk & Hlast).
  exists k. split; [done|]. split; [done|].
  unfold allocated in Hl'. rewrite Forall_forall in Hl'.
  destruct (Hl' r Hr) as [b Hb].
  rewrite assign_sequence_lookup, Hv, Hb. simpl. do 2 f_equal. lia.
Qed.

Lemma generate_boarding_sequence_last_position_witness :
  ∃ l' σ',
    generate_boarding_sequence
      {[1%positive := mkBooking 101 [str:"A1"] 1 None]}
      [1%positive; 1%positive] = Some (l', σ') ∧
    ∀ r, r ∈ l' →
      ∃ k, l' !! k = Some r ∧
           (∀ j, (k < j)%nat → l' !! j ≠ Some r) ∧
           sequence <$> σ' !! r = Some (Some (Z.of_nat k + 1)).
Proof.
  apply generate_boarding_sequence_last_position.
  apply (bool_decide_unpack _). vm_compute. exact I.
Defined.

(** ** Fresh objects *)

Lemma alloc_spec bs : ∀ next (σ : gmap loc Booking),
  Forall2 (λ r b, (alloc bs next σ).2 !! r = Some b) (alloc bs next σ).1 bs ∧
  NoDup (alloc bs next σ).1 ∧
  Forall (λ r, (next ≤ r)%positive) (alloc bs next σ).1 ∧
  (∀ r, (r < next)%positive → (alloc bs next σ).2 !! r = σ !! r).
Proof.
  induction bs as [|b bs IH]; intros next σ; cbn [alloc].
  { repeat split; constructor. }
  destruct (IH (Pos.succ next) (<[next:=b]> σ)) as (Hall & Hnd & Hge & Hlt).
  destruct (alloc bs (Pos.succ next) (<[next:=b]> σ)) as [l σ'] eqn:Halloc.
  cbn [fst snd] in *. split; [|split; [|split]].
  - constructor; [|done]. rewrite Hlt by lia. apply lookup_insert_eq.
  - constructor; [|done]. intros Hin. rewrite Forall_forall in Hge.
    specialize (Hge _ Hin). lia.
  - constructor; [lia|]. eapply Forall_impl; [exact Hge|].
    intros r Hr. cbv beta in Hr. lia.
  - intros r Hr. rewrite Hlt by lia. apply lookup_insert_ne. lia.
Qed.

Lemma alloc_deref bs next σ :
  deref (alloc bs next σ).2 (alloc bs next σ).1 = Some bs.
Proof. apply mapM_Some. apply alloc_spec. Qed.

Lemma sequence_fresh_spec (bs : list Booking) :
  ∃ bs',
    sequence_fresh bs = Some bs' ∧
    booking_data <$> bs' ≡ₚ booking_data <$> bs ∧
    sequence <$> bs' = Some <$> seqZ 1 (Z.of_nat (length bs)) ∧
    ∀ i j A B, (i < j)%nat → bs' !! i = Some A → bs' !! j = Some B →
               boards_no_later A B.
Proof.
  unfold sequence_fresh.
  pose proof (alloc_spec bs 1%positive ∅) as (Hall & Hnd & _ & _).
  pose proof (alloc_deref bs 1%positive ∅) as Hderef.
  destruct (alloc bs 1%positive ∅) as [l σ]. simpl in *.
  apply deref_Some in Hderef as [Hal ->].
  set (l' := sorted_locs σ l). set (σ' := assign_sequence 1 l' σ).
  assert (Hperm : l' ≡ₚ l) by apply sorted_locs_perm.
  assert (Hal' : allocated σ l') by by apply allocated_sorted_locs.
  rewrite generate_boarding_sequence_allocated by done. fold l' σ'.
  rewrite deref_allocated by by apply assign_sequence_allocated.
  eexists. split; [done|].
  assert (Hdata : ∀ r, r ∈ l' → booking_data (σ' !!! r) = booking_data (σ !!! r)).
  { intros r Hr. apply assign_sequence_total_data.
    unfold allocated in Hal'. rewrite Forall_forall in Hal'. auto. }
  split; [|split].
  - rewrite <- !list_fmap_compose.
    rewrite <- Hperm.
    assert ((booking_data ∘ (σ' !!!.)) <$> l'
            = (booking_data ∘ (σ !!!.)) <$> l') as Heq; [|by rewrite Heq].
    apply Forall_fmap_ext. rewrite Forall_forall. intros r Hr. simpl. auto.
  - rewrite length_fmap, <- (Permutation_length Hperm).
    apply sequence_assigned; [done|]. by rewrite Hperm.
  - intros i j A B Hij HA HB.
    rewrite list_lookup_fmap in HA, HB.
    destruct (l' !! i) as [ri|] eqn:Hi; [|done].
    destruct (l' !! j) as [rj|] eqn:Hj; [|done].
    simpl in HA, HB. apply (inj Some) in HA, HB. subst A B.
    pose proof (Hdata ri (list_elem_of_lookup_2 _ _ _ Hi)) as Hri.
    pose proof (Hdata rj (list_elem_of_lookup_2 _ _ _ Hj)) as Hrj.
    pose proof (StronglySorted_lookup _ _ i j ri rj (sorted_locs_sorted σ l) Hij Hi Hj) as Hle.
    unfold booking_data in Hri, Hrj.
    injection Hri as Hid_i _ Hd_i. injection Hrj as Hid_j _ Hd_j.
    unfold boards_no_later. unfold key_le, sort_key in Hle. simpl in Hle.
    destruct Hle as [?|[? ?]]; [left|right]; lia.
Qed.

(** X14. The sequencer on freshly built bookings, as the ingestion builds
    them, one dictionary each: it always returns; the bookings returned are
    those given, up to their order, with the same identifiers, seats and
    max-distances; they are in order; and their sequence numbers read
    1, 2, ..., N. *)
Theorem sequence_fresh_numbers (bs : list Booking) :
  ∃ bs',
    sequence_fresh bs = Some bs' ∧
    booking_data <$> bs' ≡ₚ booking_data <$> bs ∧
    sequence <$> bs' = Some <$> seqZ 1 (Z.of_nat (length bs)) ∧
    ∀ i j A B, (i < j)%nat → bs' !! i = Some A → bs' !! j = Some B →
               boards_no_later A B.
Proof. apply sequence_fresh_spec. Qed.

(** ** Printing and reading integers *)

Section printing.
Import Str Fmt.

Lemma digit_char_spec d :
  0 ≤ d < 10 → isdigit (digit_char d) = true ∧ digit_val (digit_char d) = d.
Proof.
  intros Hd.
  assert (d = 0 ∨ d = 1 ∨ d = 2 ∨ d = 3 ∨ d = 4 ∨ d = 5 ∨ d = 6 ∨ d = 7 ∨
          d = 8 ∨ d = 9) as Hcases by lia.
  repeat (destruct Hcases as [->|Hcases]; [by split|]). by subst.
Qed.

Lemma digits_of_isdigit fuel : ∀ n acc,
  0 ≤ n → forallb isdigit acc = true →
  forallb isdigit (digits_of fuel n acc) = true.
Proof.
  induction fuel as [|fuel IH]; intros n acc Hn Hacc; [done|]. cbn [digits_of].
  assert (Hd : forallb isdigit (digit_char (n mod 10) :: acc) = true).
  { assert (Hmod : 0 ≤ n mod 10 < 10) by (apply Z.mod_pos_bound; lia).
    cbn [forallb]. by rewrite Hacc, (proj1 (digit_char_spec _ Hmod)). }
  destruct (n / 10 =? 0); [done|]. apply IH; [|done].
  apply Z.div_pos; lia.
Qed.

Lemma digits_of_nonempty fuel n acc : digits_of (S fuel) n acc ≠ [].
Proof.
  revert n acc. induction fuel as [|fuel IH]; intros n acc; cbn [digits_of].
  - by destruct (n / 10 =? 0).
  - destruct (n / 10 =? 0); [done|]. apply (IH (n / 10)).
Qed.

(** Enough fuel: the digits printed are those of the number. *)
Lemma digits_of_value fuel : ∀ n acc,
  0 ≤ n < 2 ^ Z.of_nat fuel →
  foldl (λ a c, 10 * a + digit_val c) 0 (digits_of fuel n acc) =
  foldl (λ a c, 10 * a + digit_val c) n acc.
Proof.
  induction fuel as [|fuel IH]; intros n acc Hn.
  - cbn [digits_of]. change (2 ^ Z.of_nat 0) with 1 in Hn.
    by assert (n = 0) as -> by lia.
  - cbn [digits_of].
    assert (Hmod : 0 ≤ n mod 10 < 10) by (apply Z.mod_pos_bound; lia).
    pose proof (Z.div_mod n 10 ltac:(lia)) as Hdm.
    destruct (Z.eqb_spec (n / 10) 0) as [Hz|Hnz].
    + cbn [foldl]. rewrite (proj2 (digit_char_spec _ Hmod)). f_equal. lia.
    + rewrite IH.
      * cbn [foldl]. rewrite (proj2 (digit_char_spec _ Hmod)). f_equal. lia.
      * rewrite Nat2Z.inj_succ, Z.pow_succ_r in Hn by lia.
        split; [apply Z.div_pos; lia|].
        apply Z.div_lt_upper_bound; lia.
Qed.

Lemma log2_fuel n : 0 ≤ n → n < 2 ^ Z.of_nat (S (Z.to_nat (Z.log2 n))).
Proof.
  intros Hn. rewrite Nat2Z.inj_succ, Z2Nat.id by apply Z.log2_nonneg.
  destruct (Z.eq_dec n 0) as [->|Hne]; [done|].
  apply Z.log2_spec. lia.
Qed.

Lemma of_Z_nonneg_digits n :
  0 ≤ n → forallb isdigit (of_Z n) = true ∧ of_Z n ≠ [] ∧
          digits_value (of_Z n) = n.
Proof.
  intros Hn. unfold of_Z. rewrite (proj2 (Z.ltb_ge n 0)) by done.
  split; [by apply digits_of_isdigit|]. split; [apply digits_of_nonempty|].
  unfold digits_value. rewrite digits_of_value; [done|].
  split; [done|]. by apply log2_fuel.
Qed.

Lemma isdigit_val c : isdigit c = true → 0 ≤ digit_val c ≤ 9.
Proof. destruct c as [[] [] [] [] [] [] [] []]; simpl; intros; try done; by compute. Qed.

Lemma foldl_digits_bound ds : ∀ acc,
  forallb isdigit ds = true → 0 ≤ acc →
  acc * 10 ^ Z.of_nat (length ds)
    ≤ foldl (λ a c, 10 * a + digit_val c) acc ds
    < (acc + 1) * 10 ^ Z.of_nat (length ds).
Proof.
  induction ds as [|c ds IH]; intros acc Hds Hacc.
  - cbn [foldl length]. change (10 ^ Z.of_nat 0) with 1. lia.
  - cbn [forallb] in Hds. apply andb_prop in Hds as [Hc Hds].
    pose proof (isdigit_val c Hc) as Hv.
    cbn [foldl length]. rewrite Nat2Z.inj_succ, Z.pow_succ_r by lia.
    specialize (IH (10 * acc + digit_val c) Hds ltac:(lia)).
    assert (0 < 10 ^ Z.of_nat (length ds)) by (apply Z.pow_pos_nonneg; lia).
    nia.
Qed.

Lemma digits_value_lt ds :
  forallb isdigit ds = true → digits_value ds < 10 ^ Z.of_nat (length ds).
Proof.
  intros Hds. pose proof (foldl_digits_bound ds 0 Hds ltac:(lia)) as H.
  unfold digits_value. lia.
Qed.

Lemma of_Z_neg n : n < 0 → of_Z n = "-"%char :: of_Z (- n).
Proof.
  intros Hn. unfold of_Z. rewrite (proj2 (Z.ltb_lt n 0)) by done.
  by rewrite (proj2 (Z.ltb_ge (- n) 0)) by lia.
Qed.

End printing.

Section alignment.
Import Str Fmt.

Lemma digits_of_length fuel : ∀ n (d : nat) acc,
  0 ≤ n < 10 ^ Z.of_nat d → (1 ≤ d)%nat →
  (length (digits_of fuel n acc) ≤ d + length acc)%nat.
Proof.
  induction fuel as [|fuel IH]; intros n d acc Hn Hd; cbn [digits_of]; [lia|].
  destruct (Z.eqb_spec (n / 10) 0) as [Hz|Hnz]; [simpl; lia|].
  destruct d as [|d]; [lia|].
  rewrite Nat2Z.inj_succ, Z.pow_succ_r in Hn by lia.
  assert (Hq : 0 ≤ n / 10 < 10 ^ Z.of_nat d).
  { split; [apply Z.div_pos; lia | apply Z.div_lt_upper_bound; lia]. }
  assert (1 ≤ d)%nat.
  { destruct d as [|d]; [|lia]. change (10 ^ Z.of_nat 0) with 1 in Hq. lia. }
  specialize (IH (n / 10) d (digit_char (n mod 10) :: acc) Hq ltac:(done)).
  cbn [length] in IH. lia.
Qed.

Lemma of_Z_length n (d : nat) :
  0 ≤ n < 10 ^ Z.of_nat d → (1 ≤ d)%nat → (length (of_Z n) ≤ d)%nat.
Proof.
  intros Hn Hd. unfold of_Z. rewrite (proj2 (Z.ltb_ge n 0)) by lia.
  pose proof (digits_of_length (S (Z.to_nat (Z.log2 n))) n d [] Hn Hd) as H.
  change (length (@nil ascii)) with 0%nat in H. lia.
Qed.

Lemma ljust_length w s : length (ljust w s) = (length s `max` w)%nat.
Proof. unfold ljust. rewrite length_app, length_replicate. lia. Qed.

Lemma simple_row_drop k b :
  0 ≤ k < 1000000 → drop 7 (simple_row k b) = of_Z (booking_id b).
Proof.
  intros Hk. unfold simple_row.
  assert (Hlen : length (ljust 6 (of_Z k)) = 6%nat).
  { rewrite ljust_length. pose proof (of_Z_length k 6 Hk ltac:(lia)). lia. }
  rewrite drop_app_ge by lia. rewrite Hlen. done.
Qed.

(** The decimal form of a natural number has at most [d] digits exactly
    when the number is below [10 ^ d]. *)
Lemma of_Z_length_iff n (d : nat) :
  0 ≤ n → (1 ≤ d)%nat → (length (of_Z n) ≤ d)%nat ↔ n < 10 ^ Z.of_nat d.
Proof.
  intros Hn Hd. split; [|intros; by apply of_Z_length].
  intros Hlen. destruct (of_Z_nonneg_digits n Hn) as (Hds & _ & Hv).
  pose proof (digits_value_lt _ Hds) as Hlt. rewrite Hv in Hlt.
  eapply Z.lt_le_trans; [exact Hlt|].
  apply Z.pow_le_mono_r; lia.
Qed.

End alignment.

(** ** Printing integers *)

Section str_int.
Import Str Fmt.

Lemma int_max_str_digits_pos : (1 ≤ int_max_str_digits)%nat.
Proof. unfold int_max_str_digits. lia. Qed.

(** [str] prints the integers of at most 4300 digits, and only them. *)
Lemma str_int_spec n :
  str_int n = if printable n then inr (of_Z n) else inl ValueError_str_max_digits.
Proof.
  unfold str_int, printable.
  assert (Hlen : (length (of_Z n) - (if (n <? 0)%Z then 1 else 0))%nat
                 = length (of_Z (Z.abs n))).
  { destruct (Z.ltb_spec n 0) as [Hneg|Hpos].
    - rewrite (of_Z_neg n Hneg), Z.abs_neq by lia. cbn [length]. lia.
    - rewrite Z.abs_eq by lia. lia. }
  rewrite Hlen.
  pose proof (of_Z_length_iff (Z.abs n) int_max_str_digits (Z.abs_nonneg n)
                int_max_str_digits_pos) as Hiff.
  destruct (Nat.ltb_spec int_max_str_digits (length (of_Z (Z.abs n)))) as [Hgt|Hle];
    destruct (Z.ltb_spec (Z.abs n) (10 ^ Z.of_nat int_max_str_digits)) as [Hlt|Hge];
    try done.
  - apply Hiff in Hlt. lia.
  - apply Hiff in Hle. lia.
Qed.

Lemma format_int_spec n :
  format_int n = if printable n then inr (of_Z n)
                 else inl (Raised_ValueError ValueError_str_max_digits).
Proof. unfold format_int. rewrite str_int_spec. by destruct (printable n). Qed.

Lemma int_body_value run : ∀ acc prev n,
  0 ≤ acc → int_body acc prev run = Some n →
  0 ≤ n < (acc + 1) * 10 ^ Z.of_nat (count_digits run).
Proof.
  unfold count_digits.
  induction run as [|c run IH]; intros acc prev n Hacc; cbn [int_body].
  - destruct prev; [|done]. intros [= <-]. cbn [filter list_filter length].
    change (10 ^ Z.of_nat 0) with 1. lia.
  - destruct (isdigit c) eqn:Hc.
    + intros Hn. pose proof (isdigit_val c Hc) as Hv.
      apply IH in Hn; [|lia].
      rewrite filter_cons_True by by rewrite Hc.
      cbn [length]. rewrite Nat2Z.inj_succ, Z.pow_succ_r by lia.
      assert (0 < 10 ^ Z.of_nat (length (filter (λ c, isdigit c) run)))
        by (apply Z.pow_pos_nonneg; lia).
      nia.
    + destruct (Ascii.eqb c "_" && prev); [|done]. intros Hn.
      apply IH in Hn; [|done].
      rewrite filter_cons_False by (rewrite Hc; intros []). done.
Qed.

(** What [int] returns, [str] prints. *)
Lemma int_printable s n : int s = inr n → printable n = true.
Proof.
  unfold int.
  destruct (match lstrip_c s with
            | [] => (false, lstrip_c s)
            | c :: t' =>
                if Ascii.eqb c "-" then (true, t')
                else if Ascii.eqb c "+" then (false, t') else (false, lstrip_c s)
            end) as [neg body].
  destruct (span_literal body) as [run rest].
  destruct (int_body 0 false run) as [m|] eqn:Hm; [|done].
  destruct (Nat.ltb_spec int_max_str_digits (count_digits run)) as [|Hle]; [done|].
  destruct (lstrip_c rest); [|done]. intros Hn. apply (inj inr) in Hn.
  apply int_body_value in Hm; [|done].
  assert (10 ^ Z.of_nat (count_digits run) ≤ 10 ^ Z.of_nat int_max_str_digits)
    by (apply Z.pow_le_mono_r; lia).
  unfold printable. apply Z.ltb_lt. destruct neg; subst n; lia.
Qed.

Lemma parse_seat_printable s L n : parse_seat s = inr (L, n) → printable n = true.
Proof.
  destruct (re_match_seat (normalize s)) as [[c ds]|] eqn:H.
  - rewrite (parse_seat_match _ _ _ H).
    apply re_match_seat_Some in H as (_ & Hds & _ & _).
    destruct (Nat.ltb_spec int_max_str_digits (length ds)) as [|Hle]; [done|].
    intros [= _ <-]. pose proof (digits_value_lt ds Hds).
    pose proof (digits_value_nonneg ds).
    assert (10 ^ Z.of_nat (length ds) ≤ 10 ^ Z.of_nat int_max_str_digits)
      by (apply Z.pow_le_mono_r; lia).
    unfold printable. apply Z.ltb_lt. lia.
  - by rewrite (parse_seat_no_match _ H).
Qed.

Lemma get_booking_max_distance_printable seats m :
  get_booking_max_distance seats = inr m → printable m = true.
Proof.
  intros (_ & _ & _ & Hex)%get_booking_max_distance_inr.
  apply Exists_exists in Hex as (s & _ & Hs). unfold get_seat_distance in Hs.
  destruct (parse_seat s) as [e|[L n]] eqn:Hp; [done|].
  simpl in Hs. apply (inj inr) in Hs. subst m. by eapply parse_seat_printable.
Qed.

End str_int.

Lemma parse_booking_data_printable_aux text bs :
  parse_booking_data text = inr bs →
  Forall (λ b, printable (booking_id b) = true ∧ printable (max_distance b) = true) bs.
Proof.
  intros H%parse_lines_invariant. eapply Forall_impl; [exact H|].
  intros b (raw & _ & _ & (Hid & _ & Hd & _)%record_of_inr). split.
  - by eapply int_printable.
  - by eapply get_booking_max_distance_printable.
Qed.

(** X15. The integers of the bookings the ingestion returns have at most
    4300 digits each, identifier and max-distance alike: they are integers
    the reports can print. *)
Theorem parse_booking_data_printable (text : list ascii) (bs : list Booking) :
  parse_booking_data text = inr bs →
  Forall (λ b, printable (booking_id b) = true ∧ printable (max_distance b) = true) bs.
Proof. apply parse_booking_data_printable_aux. Qed.

Lemma parse_booking_data_printable_witness :
  Forall (λ b, printable (booking_id b) = true ∧ printable (max_distance b) = true)
    [mkBooking 120 [str:"A20"; str:"C2"] 20 None].
Proof.
  apply (parse_booking_data_printable
           (written ["Booking_id,Seats"; "120, A20 ,C2"])).
  reflexivity.
Defined.

(** ** The reports *)

Lemma rows_by_inr line bs rows :
  rows_by line bs = inr rows ↔ Forall2 (λ b r, line b = inr r) bs rows.
Proof.
  revert rows. induction bs as [|b bs IH]; intros rows.
  - simpl. split; [intros [= <-]; constructor | by intros ->%Forall2_nil_inv_l].
  - cbn [rows_by]. split.
    + destruct (line b) as [e|r] eqn:Hr; [done|]. cbn [bind].
      destruct (rows_by line bs) as [e|rs] eqn:Hrs; [done|]. cbn [bind].
      intros [= <-]. constructor; [done|]. by apply IH.
    + intros (r & rs & Hr & Hrs & ->)%Forall2_cons_inv_l.
      rewrite Hr. cbn [bind]. apply IH in Hrs. by rewrite Hrs.
Qed.

Lemma rows_by_inl line bs e :
  rows_by line bs = inl e ↔
  ∃ pre b post, bs = pre ++ b :: post ∧
                Forall (λ b, ∃ r, line b = inr r) pre ∧ line b = inl e.
Proof.
  induction bs as [|b bs IH].
  - simpl. split; [done|]. by intros ([|??] & ? & ? & ? & _).
  - cbn [rows_by]. destruct (line b) as [e'|r] eqn:Hr; cbn [bind].
    + split.
      * intros [= <-]. exists [], b, bs. by repeat split.
      * intros ([|b' pre] & b2 & post & Heq & Hpre & He).
        -- simpl in Heq. injection Heq as <- <-. congruence.
        -- simpl in Heq. injection Heq as <- ->.
           apply Forall_cons in Hpre as [[r' Hr'] _]. congruence.
    + destruct (rows_by line bs) as [e'|rs] eqn:Hrs; cbn [bind].
      * split.
        -- intros [= <-]. destruct (proj1 IH eq_refl) as (pre & b2 & post & -> & Hpre & He).
           exists (b :: pre), b2, post. split; [done|]. split; [|done].
           constructor; eauto.
        -- intros ([|b' pre] & b2 & post & Heq & Hpre & He).
           ++ simpl in Heq. injection Heq as <- <-. congruence.
           ++ simpl in Heq. injection Heq as <- ->.
              apply Forall_cons in Hpre as [_ Hpre].
              apply IH. eauto 6.
      * split; [done|].
        intros ([|b' pre] & b2 & post & Heq & Hpre & He).
        -- simpl in Heq. injection Heq as <- <-. congruence.
        -- simpl in Heq. injection Heq as <- ->.
           apply Forall_cons in Hpre as [_ Hpre].
           assert (inr rs = inl e :> py_exn + list (list ascii)) as Hbad
             by (apply IH; eauto 6).
           done.
Qed.

(** The line of a booking: its row when the booking can be printed, the
    exception of the first field that fails otherwise. *)
Lemma simple_line_spec b :
  simple_line b =
  match sequence b with
  | Some k => if simple_printable b then inr (simple_row k b) else inl (line_error b)
  | None => inl (line_error b)
  end.
Proof.
  unfold simple_line, simple_printable, line_error, get_sequence, simple_row.
  destruct (sequence b) as [k|]; [|done]. cbn [bind].
  rewrite !format_int_spec.
  destruct (printable k); [|done]. cbn [bind andb].
  by destruct (printable (booking_id b)).
Qed.

Lemma detailed_line_spec b :
  detailed_line b =
  match sequence b with
  | Some k => if detailed_printable b then inr (detailed_row k b) else inl (line_error b)
  | None => inl (line_error b)
  end.
Proof.
  unfold detailed_line, detailed_printable, simple_printable, line_error,
    get_sequence, detailed_row.
  destruct (sequence b) as [k|]; [|done]. cbn [bind].
  rewrite !format_int_spec.
  destruct (printable k); [|done]. cbn [bind andb].
  destruct (printable (booking_id b)); [|done]. cbn [bind andb].
  by destruct (printable (max_distance b)).
Qed.

Lemma simple_printable_None b : sequence b = None → simple_printable b = false.
Proof. unfold simple_printable. by intros ->. Qed.

Lemma detailed_printable_None b : sequence b = None → detailed_printable b = false.
Proof. unfold detailed_printable. by intros ->%simple_printable_None. Qed.

Lemma simple_line_inr b r :
  simple_line b = inr r ↔
  simple_printable b = true ∧ ∃ k, sequence b = Some k ∧ r = simple_row k b.
Proof.
  rewrite simple_line_spec. destruct (sequence b) as [k|] eqn:Hk.
  - destruct (simple_printable b).
    + split; [intros [= <-]; eauto | by intros (_ & k' & [= <-] & ->)].
    + split; [done | by intros [? _]].
  - split; [done | by intros (_ & ? & ? & _)].
Qed.

Lemma simple_line_inl b e :
  simple_line b = inl e ↔ simple_printable b = false ∧ e = line_error b.
Proof.
  rewrite simple_line_spec. destruct (sequence b) as [k|] eqn:Hk.
  - destruct (simple_printable b).
    + split; [done | by intros [? _]].
    + split; [by intros [= <-] | by intros [_ ->]].
  - rewrite (simple_printable_None b Hk).
    split; [by intros [= <-] | by intros [_ ->]].
Qed.

Lemma detailed_line_inr b r :
  detailed_line b = inr r ↔
  detailed_printable b = true ∧ ∃ k, sequence b = Some k ∧ r = detailed_row k b.
Proof.
  rewrite detailed_line_spec. destruct (sequence b) as [k|] eqn:Hk.
  - destruct (detailed_printable b).
    + split; [intros [= <-]; eauto | by intros (_ & k' & [= <-] & ->)].
    + split; [done | by intros [? _]].
  - split; [done | by intros (_ & ? & ? & _)].
Qed.

Lemma detailed_line_inl b e :
  detailed_line b = inl e ↔ detailed_printable b = false ∧ e = line_error b.
Proof.
  rewrite detailed_line_spec. destruct (sequence b) as [k|] eqn:Hk.
  - destruct (detailed_printable b).
    + split; [done | by intros [? _]].
    + split; [by intros [= <-] | by intros [_ ->]].
  - rewrite (detailed_printable_None b Hk).
    split; [by intros [= <-] | by intros [_ ->]].
Qed.

Lemma rows_simple_inr bs rows :
  rows_by simple_line bs = inr rows →
  Forall2 (λ b r, ∃ k, sequence b = Some k ∧ r = simple_row k b) bs rows.
Proof.
  intros H%rows_by_inr. eapply Forall2_impl; [exact H|].
  by intros b r (_ & Hk)%simple_line_inr.
Qed.

Lemma rows_detailed_inr bs rows :
  rows_by detailed_line bs = inr rows →
  Forall2 (λ b r, ∃ k, sequence b = Some k ∧ r = detailed_row k b) bs rows.
Proof.
  intros H%rows_by_inr. eapply Forall2_impl; [exact H|].
  by intros b r (_ & Hk)%detailed_line_inr.
Qed.

(** When a report returns and when it raises, for any line function that
    fails exactly on the bookings [ok] refuses, with [line_error]. *)
Lemma rows_by_cases line (ok : Booking → bool) bs :
  (∀ b, (∃ r, line b = inr r) ↔ ok b = true) →
  (∀ b e, line b = inl e ↔ ok b = false ∧ e = line_error b) →
  ((∃ rows, rows_by line bs = inr rows) ↔ Forall (λ b, ok b = true) bs) ∧
  (∀ e, rows_by line bs = inl e ↔
        ∃ pre b post, bs = pre ++ b :: post ∧
                      Forall (λ b, ok b = true) pre ∧
                      ok b = false ∧ e = line_error b).
Proof.
  intros Hok Herr. split.
  - split.
    + intros [rows Hrows%rows_by_inr].
      induction Hrows as [|b r bs rows Hr _ IH]; constructor; [|done].
      apply Hok. eauto.
    + intros Hall. induction Hall as [|b bs Hb _ [rows IH]]; [by exists []|].
      apply Hok in Hb as [r Hr]. exists (r :: rows).
      cbn [rows_by]. by rewrite Hr, IH.
  - intros e. rewrite rows_by_inl. split.
    + intros (pre & b & post & -> & Hpre & He). exists pre, b, post.
      split; [done|]. split; [|by apply Herr].
      eapply Forall_impl; [exact Hpre|]. intros b'. apply Hok.
    + intros (pre & b & post & -> & Hpre & Hb & ->). exists pre, b, post.
      split; [done|]. split; [|by apply Herr].
      eapply Forall_impl; [exact Hpre|]. intros b'. apply Hok.
Qed.

Lemma simple_line_ok b : (∃ r, simple_line b = inr r) ↔ simple_printable b = true.
Proof.
  split.
  - by intros [r [? _]%simple_line_inr].
  - intros Hb. pose proof (simple_line_spec b) as Hs. rewrite Hb in Hs.
    destruct (sequence b) as [k|] eqn:Hk; [eauto|].
    by rewrite (simple_printable_None b Hk) in Hb.
Qed.

Lemma detailed_line_ok b : (∃ r, detailed_line b = inr r) ↔ detailed_printable b = true.
Proof.
  split.
  - by intros [r [? _]%detailed_line_inr].
  - intros Hb. pose proof (detailed_line_spec b) as Hs. rewrite Hb in Hs.
    destruct (sequence b) as [k|] eqn:Hk; [eauto|].
    by rewrite (detailed_printable_None b Hk) in Hb.
Qed.

Lemma display_simple_sequence_rows bs :
  display_simple_sequence bs =
  match rows_by simple_line bs with
  | inl e => inl e
  | inr rows => inr (Fmt.join LF (simple_header :: replicate 20 "-"%char :: rows))
  end.
Proof. done. Qed.

Lemma display_sequence_rows bs :
  display_sequence bs =
  match rows_by detailed_line bs with
  | inl e => inl e
  | inr rows => inr (Fmt.join LF (detailed_header :: replicate 60 "-"%char :: rows))
  end.
Proof. done. Qed.

Lemma display_simple_sequence_cases bs :
  ((∃ text, display_simple_sequence bs = inr text) ↔
   Forall (λ b, simple_printable b = true) bs) ∧
  (∀ e, display_simple_sequence bs = inl e ↔
        ∃ pre b post, bs = pre ++ b :: post ∧
                      Forall (λ b, simple_printable b = true) pre ∧
                      simple_printable b = false ∧ e = line_error b).
Proof.
  destruct (rows_by_cases simple_line simple_printable bs simple_line_ok simple_line_inl)
    as [Hret Hraise].
  rewrite display_simple_sequence_rows. split.
  - rewrite <- Hret. destruct (rows_by simple_line bs) as [e|rows].
    + split; by intros [? ?].
    + split; eauto.
  - intros e. rewrite <- Hraise. destruct (rows_by simple_line bs) as [e'|rows].
    + split; by intros [= <-].
    + split; done.
Qed.

Lemma display_sequence_cases bs :
  ((∃ text, display_sequence bs = inr text) ↔
   Forall (λ b, detailed_printable b = true) bs) ∧
  (∀ e, display_sequence bs = inl e ↔
        ∃ pre b post, bs = pre ++ b :: post ∧
                      Forall (λ b, detailed_printable b = true) pre ∧
                      detailed_printable b = false ∧ e = line_error b).
Proof.
  destruct (rows_by_cases detailed_line detailed_printable bs
              detailed_line_ok detailed_line_inl) as [Hret Hraise].
  rewrite display_sequence_rows. split.
  - rewrite <- Hret. destruct (rows_by detailed_line bs) as [e|rows].
    + split; by intros [? ?].
    + split; eauto.
  - intros e. rewrite <- Hraise. destruct (rows_by detailed_line bs) as [e'|rows].
    + split; by intros [= <-].
    + split; done.
Qed.

Example str_int_limit :
  str_int 120 = inr str:"120" ∧ str_int (-7) = inr str:"-7" ∧
  str_int (10 ^ 4300) = inl ValueError_str_max_digits ∧
  str_int (- 10 ^ 4300) = inl ValueError_str_max_digits.
Proof.
  split; [reflexivity|]. split; [reflexivity|]. rewrite !str_int_spec.
  assert (printable (10 ^ 4300) = false) as -> by (vm_compute; reflexivity).
  assert (printable (- 10 ^ 4300) = false) as -> by (vm_compute; reflexivity).
  done.
Qed.

(** The first booking that cannot be printed decides the exception. *)
Example display_simple_sequence_raises :
  display_simple_sequence
    [mkBooking 120 [str:"A20"] 20 (Some 1); mkBooking 101 [str:"A1"] 1 None;
     mkBooking (10 ^ 4300) [str:"A1"] 1 (Some 3)]
  = inl (Raised_KeyError KeyError_sequence) ∧
  display_simple_sequence
    [mkBooking 120 [str:"A20"] 20 (Some 1); mkBooking (10 ^ 4300) [str:"A1"] 1 (Some 2);
     mkBooking 101 [str:"A1"] 1 None]
  = inl (Raised_ValueError ValueError_str_max_digits).
Proof.
  split; apply display_simple_sequence_cases.
  - exists [mkBooking 120 [str:"A20"] 20 (Some 1)], (mkBooking 101 [str:"A1"] 1 None),
      [mkBooking (10 ^ 4300) [str:"A1"] 1 (Some 3)].
    split; [done|]. split; [by repeat constructor|]. done.
  - exists [mkBooking 120 [str:"A20"] 20 (Some 1)],
      (mkBooking (10 ^ 4300) [str:"A1"] 1 (Some 2)),
      [mkBooking 101 [str:"A1"] 1 None].
    split; [done|]. split; [by repeat constructor|]. split; [|done].
    vm_compute. reflexivity.
Qed.

(** X16. A report returns a text exactly when it can print every booking
    of the list: the booking has a sequence number, and the integers of its
    row (sequence number and identifier; the max-distance too in the
    detailed report) have at most 4300 digits each. Otherwise it raises on
    the first booking it cannot print: [KeyError] when that booking has no
    sequence number, the [ValueError] of [str] on too many digits when it
    has one. *)
Theorem display_raises (bs : list Booking) :
  ((∃ text, display_simple_sequence bs = inr text) ↔
   Forall (λ b, simple_printable b = true) bs) ∧
  ((∃ text, display_sequence bs = inr text) ↔
   Forall (λ b, detailed_printable b = true) bs) ∧
  (∀ e, display_simple_sequence bs = inl e ↔
        ∃ pre b post, bs = pre ++ b :: post ∧
                      Forall (λ b, simple_printable b = true) pre ∧
                      simple_printable b = false ∧ e = line_error b) ∧
  (∀ e, display_sequence bs = inl e ↔
        ∃ pre b post, bs = pre ++ b :: post ∧
                      Forall (λ b, detailed_printable b = true) pre ∧
                      detailed_printable b = false ∧ e = line_error b).
Proof.
  destruct (display_simple_sequence_cases bs) as [H1 H3].
  destruct (display_sequence_cases bs) as [H2 H4]. done.
Qed.

Section lines.
Import Str Fmt.

Lemma split_no_sep sep s : sep ∉ s → split sep s = [s].
Proof.
  induction s as [|c s IH]; [done|].
  intros [Hc Hs]%not_elem_of_cons. simpl.
  rewrite (proj2 (Ascii.eqb_neq c sep)) by done. by rewrite IH.
Qed.

Lemma split_app_sep sep s t :
  sep ∉ s → split sep (s ++ sep :: t) = s :: split sep t.
Proof.
  induction s as [|c s IH]; intros Hs; simpl.
  - by rewrite Ascii.eqb_refl.
  - apply not_elem_of_cons in Hs as [Hc Hs].
    rewrite (proj2 (Ascii.eqb_neq c sep)) by done. by rewrite IH.
Qed.

(** Cutting at the separator what was joined with it gives back the pieces
    when no piece holds the separator. *)
Lemma split_join sep l :
  l ≠ [] → Forall (λ s, sep ∉ s) l → split sep (join sep l) = l.
Proof.
  intros Hne Hl. induction Hl as [|s l Hs Hl IH]; [done|].
  destruct l as [|s' l].
  - simpl. by apply split_no_sep.
  - change (join sep (s :: s' :: l)) with (s ++ sep :: join sep (s' :: l)).
    rewrite split_app_sep by done. by rewrite IH.
Qed.

Lemma split_elem_no_sep sep s : Forall (λ w, sep ∉ w) (split sep s).
Proof.
  induction s as [|c s IH]; simpl.
  - repeat constructor. apply not_elem_of_nil.
  - destruct (Ascii.eqb_spec c sep) as [->|Hc].
    + constructor; [apply not_elem_of_nil | done].
    + destruct (split sep s) as [|w ws]; [repeat constructor|].
      * by intros [?|?%not_elem_of_nil]%elem_of_cons.
      * apply Forall_cons in IH as [Hw Hws]. constructor; [|done].
        by intros [?|?]%elem_of_cons.
Qed.

Lemma lstrip_elem c s : c ∈ lstrip s → c ∈ s.
Proof.
  induction s as [|c' s IH]; [done|]. simpl.
  destruct (isspace c'); [|done]. intros ?. right. auto.
Qed.

Lemma strip_elem c s : c ∈ strip s → c ∈ s.
Proof.
  unfold strip, rstrip. rewrite elem_of_reverse.
  intros H%lstrip_elem. rewrite elem_of_reverse in H. by apply lstrip_elem.
Qed.

Lemma of_Z_chars n c : c ∈ of_Z n → c = "-"%char ∨ isdigit c = true.
Proof.
  assert (Hpos : ∀ m, 0 ≤ m → c ∈ of_Z m → isdigit c = true).
  { intros m Hm Hc. destruct (of_Z_nonneg_digits m Hm) as (Hd & _ & _).
    rewrite forallb_forall in Hd. apply Hd. by apply list_elem_of_In. }
  destruct (Z.ltb_spec n 0) as [Hneg|Hn]; [|right; by apply (Hpos n)].
  assert (of_Z n = "-"%char :: of_Z (- n)) as ->.
  { unfold of_Z. rewrite (proj2 (Z.ltb_lt n 0)) by done.
    by rewrite (proj2 (Z.ltb_ge (- n) 0)) by lia. }
  intros [->|Hc]%elem_of_cons; [by left|]. right. apply (Hpos (- n)); [lia|done].
Qed.

Lemma of_Z_no_LF n : LF ∉ of_Z n.
Proof. by intros [?|?]%of_Z_chars. Qed.

Lemma ljust_no_LF w s : LF ∉ s → LF ∉ ljust w s.
Proof.
  intros Hs. unfold ljust. rewrite elem_of_app. intros [?|H]; [done|].
  by apply elem_of_replicate in H as [? _].
Qed.

Lemma simple_row_no_LF k b : LF ∉ simple_row k b.
Proof.
  unfold simple_row. rewrite elem_of_app, elem_of_cons.
  intros [H|[?|H]]; [|done|].
  - by apply (ljust_no_LF 6 _ (of_Z_no_LF k)) in H.
  - by apply of_Z_no_LF in H.
Qed.

End lines.

Lemma display_simple_sequence_lines_aux (bs : list Booking) (report : list ascii) :
  display_simple_sequence bs = inr report →
  ∃ rows,
    Str.split LF report = simple_header :: replicate 20 "-"%char :: rows ∧
    length (Str.split LF report) = (length bs + 2)%nat ∧
    Forall2 (λ b row, ∃ k, sequence b = Some k ∧
                           row = Fmt.ljust 6 (Fmt.of_Z k) ++ " "%char ::
                                 Fmt.of_Z (booking_id b)) bs rows.
Proof.
  rewrite display_simple_sequence_rows.
  destruct (rows_by simple_line bs) as [e|rows] eqn:Hrows; [done|].
  intros Heq. apply (inj inr) in Heq. subst report.
  apply rows_simple_inr in Hrows. exists rows.
  assert (Hsplit : Str.split LF
            (Fmt.join LF (simple_header :: replicate 20 "-"%char :: rows))
          = simple_header :: replicate 20 "-"%char :: rows).
  { apply split_join; [done|]. constructor; [|constructor].
    - apply (bool_decide_unpack _). vm_compute. exact I.
    - apply (bool_decide_unpack _). vm_compute. exact I.
    - clear -Hrows. induction Hrows as [|b r bs rows (k & _ & ->) _ IH];
        constructor; [apply simple_row_no_LF | done]. }
  rewrite Hsplit. split; [done|]. split; [|done].
  simpl. rewrite <- (Forall2_length _ _ _ Hrows). lia.
Qed.

(** X17. The lines of the simple report: cut at the newlines, the text is
    the header, the rule of 20 dashes, then one row per booking, in the
    order of the list, N + 2 lines in all; a row is the sequence number,
    padded to six columns, a space, and the identifier. *)
Theorem display_simple_sequence_lines (bs : list Booking) (report : list ascii) :
  display_simple_sequence bs = inr report →
  ∃ rows,
    Str.split LF report = simple_header :: replicate 20 "-"%char :: rows ∧
    length (Str.split LF report) = (length bs + 2)%nat ∧
    Forall2 (λ b row, ∃ k, sequence b = Some k ∧
                           row = Fmt.ljust 6 (Fmt.of_Z k) ++ " "%char ::
                                 Fmt.of_Z (booking_id b)) bs rows.
Proof. apply display_simple_sequence_lines_aux. Qed.

Lemma display_simple_sequence_lines_witness :
  ∃ rows,
    Str.split LF (str:"Seq    Booking_ID" ++ [LF] ++
                  str:"--------------------" ++ [LF] ++
                  str:"1      120" ++ [LF] ++ str:"2      101")
    = simple_header :: replicate 20 "-"%char :: rows ∧
    length rows = 2%nat.
Proof.
  destruct (display_simple_sequence_lines
              [mkBooking 120 [str:"A20"] 20 (Some 1);
               mkBooking 101 [str:"A1"] 1 (Some 2)]
              (str:"Seq    Booking_ID" ++ [LF] ++
               str:"--------------------" ++ [LF] ++
               str:"1      120" ++ [LF] ++ str:"2      101") eq_refl)
    as (rows & Hsplit & _ & Hrows).
  exists rows. split; [exact Hsplit|].
  symmetry. exact (Forall2_length _ _ _ Hrows).
Defined.

(** X18. The columns of the simple report: as long as the sequence numbers
    lie between 0 and 999999, the identifier starts at the eighth column of
    every row, where ["Booking_ID"] starts in the header. *)
Theorem display_simple_sequence_columns (bs : list Booking) (text : list ascii) :
  display_simple_sequence bs = inr text →
  Forall (λ b, ∃ k, sequence b = Some k ∧ 0 ≤ k < 1000000) bs →
  Forall2 (λ b line, drop 7 line = Fmt.of_Z (booking_id b))
    bs (drop 2 (Str.split LF text)) ∧
  (drop 7 <$> head (Str.split LF text)) = Some str:"Booking_ID".
Proof.
  intros Hd Hseq.
  rewrite display_simple_sequence_rows in Hd.
  destruct (rows_by simple_line bs) as [e|rows] eqn:Hrows; [done|].
  apply (inj inr) in Hd. subst text. apply rows_simple_inr in Hrows.
  assert (Hsplit : Str.split LF
            (Fmt.join LF (simple_header :: replicate 20 "-"%char :: rows))
          = simple_header :: replicate 20 "-"%char :: rows).
  { apply split_join; [done|]. constructor; [|constructor].
    - apply (bool_decide_unpack _). vm_compute. exact I.
    - apply (bool_decide_unpack _). vm_compute. exact I.
    - clear -Hrows. induction Hrows as [|b r bs rows (k & _ & ->) _ IH];
        constructor; [apply simple_row_no_LF | done]. }
  rewrite Hsplit. split; [|done]. cbn [drop].
  clear Hsplit. induction Hrows as [|b r bs rows (k & Hk & ->) _ IH]; [constructor|].
  apply Forall_cons in Hseq as [(k' & Hk' & Hrange) Hseq].
  constructor; [|by apply IH].
  assert (k' = k) as -> by congruence. by apply simple_row_drop.
Qed.

Lemma display_simple_sequence_columns_witness :
  Forall2 (λ b line, drop 7 line = Fmt.of_Z (booking_id b))
    [mkBooking 120 [str:"A20"] 20 (Some 1); mkBooking 101 [str:"A1"] 1 (Some 2)]
    [str:"1      120"; str:"2      101"].
Proof.
  refine (proj1 (display_simple_sequence_columns
            [mkBooking 120 [str:"A20"] 20 (Some 1);
             mkBooking 101 [str:"A1"] 1 (Some 2)]
            (str:"Seq    Booking_ID" ++ [LF] ++
             str:"--------------------" ++ [LF] ++
             str:"1      120" ++ [LF] ++ str:"2      101") eq_refl _)).
  repeat constructor; eexists; (split; [reflexivity | lia]).
Defined.

Lemma fields_no_comma raw : Forall (λ s, ","%char ∉ s) (fields raw).
Proof.
  unfold fields. rewrite Forall_fmap.
  eapply Forall_impl; [apply split_elem_no_sep|].
  intros s Hs Hin. simpl in Hin. by apply strip_elem in Hin.
Qed.

(** X19. The seats of a booking survive the detailed report: the seats the
    ingestion has cut out of a line hold no comma, so that their list,
    joined with commas as the report prints it, cut again at the commas, is
    the list of seats of the booking. *)
Theorem parse_booking_data_seats_round_trip (text : list ascii) (bs : list Booking) :
  parse_booking_data text = inr bs →
  Forall (λ b, Str.split ","%char (Fmt.join ","%char (seats b)) = seats b) bs.
Proof.
  intros H%parse_lines_invariant. eapply Forall_impl; [exact H|].
  intros b (raw & _ & Hrec & (_ & Hseats & _ & _)%record_of_inr).
  apply split_join.
  - rewrite Hseats. by apply is_record_tail.
  - rewrite Hseats. pose proof (fields_no_comma raw) as Hf.
    destruct (fields raw) as [|f fs]; [constructor|].
    by apply Forall_cons in Hf as [_ ?].
Qed.

Lemma parse_booking_data_seats_round_trip_witness :
  Forall (λ b, Str.split ","%char (Fmt.join ","%char (seats b)) = seats b)
    [mkBooking 120 [str:"A20"; str:"C2"] 20 None].
Proof.
  apply (parse_booking_data_seats_round_trip
           (written ["Booking_id,Seats"; "120, A20 ,C2"])).
  reflexivity.
Defined.

(** ** The file processor *)

Lemma printable_range (k : Z) :
  0 ≤ k → printable k = true ↔ k < 10 ^ Z.of_nat Str.int_max_str_digits.
Proof. intros Hk. unfold printable. rewrite Z.abs_eq by done. apply Z.ltb_lt. Qed.

(** The bookings of a fresh sequencing, by position: the booking at
    position [i] has the sequence number [i + 1], and its other integers
    are those of some booking of the input. *)
Lemma sequence_fresh_lookup bs bs' :
  Forall (λ b, printable (booking_id b) = true ∧ printable (max_distance b) = true) bs →
  sequence_fresh bs = Some bs' →
  length bs' = length bs ∧
  ∀ i b, bs' !! i = Some b →
         sequence b = Some (1 + Z.of_nat i) ∧
         printable (booking_id b) = true ∧ printable (max_distance b) = true.
Proof.
  intros Hpr Hfresh.
  destruct (sequence_fresh_spec bs) as (bs2 & Hbs2 & Hperm & Hseq & _).
  assert (bs2 = bs') as -> by congruence.
  assert (Hlen : length bs' = length bs).
  { pose proof (Permutation_length Hperm) as Hl. by rewrite !length_fmap in Hl. }
  split; [done|]. intros i b Hb. split.
  - assert (Hi : (sequence <$> bs') !! i = Some (sequence b))
      by by rewrite list_lookup_fmap, Hb.
    rewrite Hseq, list_lookup_fmap in Hi.
    destruct (seqZ 1 (Z.of_nat (length bs)) !! i) as [k|] eqn:Hk; [|done].
    apply lookup_seqZ in Hk as [-> _]. simpl in Hi. by injection Hi as <-.
  - assert (Hdata : Forall (λ d : Z * list (list ascii) * Z,
                              printable d.1.1 = true ∧ printable d.2 = true)
                      (booking_data <$> bs')).
    { rewrite Hperm, Forall_fmap. eapply Forall_impl; [exact Hpr|]. done. }
    rewrite Forall_fmap in Hdata.
    apply (proj1 (Forall_lookup _ _) Hdata i b Hb).
Qed.

(** The report of a fresh sequencing is printed as long as the sequence
    numbers have at most 4300 digits; with more bookings than that, [str]
    raises on the first sequence number of 4301 digits. *)
Lemma render_fresh simple bs bs' :
  Forall (λ b, printable (booking_id b) = true ∧ printable (max_distance b) = true) bs →
  sequence_fresh bs = Some bs' →
  (Z.of_nat (length bs) < 10 ^ Z.of_nat Str.int_max_str_digits →
   ∃ txt, render simple bs' = inr txt) ∧
  (10 ^ Z.of_nat Str.int_max_str_digits ≤ Z.of_nat (length bs) →
   render simple bs' = inl (Raised_ValueError ValueError_str_max_digits)).
Proof.
  intros Hpr Hfresh.
  destruct (sequence_fresh_lookup bs bs' Hpr Hfresh) as [Hlen Hlook].
  assert (Hpos : 0 < 10 ^ Z.of_nat Str.int_max_str_digits)
    by (apply Z.pow_pos_nonneg; lia).
  assert (Hok : ∀ i b, bs' !! i = Some b →
                  1 + Z.of_nat i < 10 ^ Z.of_nat Str.int_max_str_digits →
                  simple_printable b = true ∧ detailed_printable b = true).
  { intros i b Hb Hi. destruct (Hlook i b Hb) as (Hk & Hid & Hd).
    unfold detailed_printable, simple_printable. rewrite Hk, Hid, Hd.
    by rewrite (proj2 (printable_range (1 + Z.of_nat i) ltac:(lia))). }
  split.
  - intros Hsmall.
    assert (Hall : Forall (λ b, simple_printable b = true ∧
                                detailed_printable b = true) bs').
    { apply Forall_lookup. intros i b Hb. apply (Hok i b Hb).
      apply lookup_lt_Some in Hb. lia. }
    unfold render. destruct simple.
    + apply display_simple_sequence_cases.
      eapply Forall_impl; [exact Hall|]. by intros b [? _].
    + apply display_sequence_cases.
      eapply Forall_impl; [exact Hall|]. by intros b [_ ?].
  - intros Hbig.
    remember (10 ^ Z.of_nat Str.int_max_str_digits) as B eqn:HB.
    set (i := Z.to_nat (B - 1)).
    assert (Hi : (i < length bs')%nat) by (unfold i; lia).
    destruct (lookup_lt_is_Some_2 bs' i Hi) as [b Hb].
    destruct (Hlook i b Hb) as (Hk & _ & _).
    assert (HkB : 1 + Z.of_nat i = B) by (unfold i; lia).
    assert (Hbad : printable (1 + Z.of_nat i) = false).
    { apply not_true_is_false. intros Hp.
      apply printable_range in Hp; [|lia]. rewrite <- HB in Hp. lia. }
    assert (Hb1 : simple_printable b = false).
    { unfold simple_printable. by rewrite Hk, Hbad. }
    assert (Hb2 : detailed_printable b = false).
    { unfold detailed_printable. by rewrite Hb1. }
    assert (He : line_error b = Raised_ValueError ValueError_str_max_digits).
    { unfold line_error. by rewrite Hk. }
    assert (Hpre : Forall (λ b, simple_printable b = true ∧
                                detailed_printable b = true) (take i bs')).
    { apply Forall_lookup. intros j b' Hb'.
      pose proof (lookup_lt_Some _ _ _ Hb') as Hj. rewrite length_take in Hj.
      rewrite lookup_take_lt in Hb' by lia.
      apply (Hok j b' Hb'). rewrite HB. lia. }
    pose proof (take_drop_middle bs' i b Hb) as Hsplit.
    unfold render. destruct simple.
    + apply display_simple_sequence_cases.
      exists (take i bs'), b, (drop (S i) bs'). split; [done|].
      split; [|done]. eapply Forall_impl; [exact Hpre|]. by intros b' [? _].
    + apply display_sequence_cases.
      exists (take i bs'), b, (drop (S i) bs'). split; [done|].
      split; [|done]. eapply Forall_impl; [exact Hpre|]. by intros b' [_ ?].
Qed.

(** What [read_file] returns is a text of at most [sys.maxsize] lines. *)
Lemma read_file_inr env path text :
  read_file env path = inr text ↔
  file_content env path = inr text ∧
  Z.of_nat (length (readlines text)) ≤ sys_maxsize.
Proof.
  unfold read_file. destruct (file_content env path) as [e|t].
  - split; [done | by intros [? _]].
  - destruct (Z.leb_spec (Z.of_nat (length (readlines t))) sys_maxsize).
    + split; [by intros [= <-] | by intros [[= <-] _]].
    + split; [done|]. intros [[= <-] ?]. lia.
Qed.

Lemma sys_maxsize_printable : sys_maxsize < 10 ^ Z.of_nat Str.int_max_str_digits.
Proof. apply Z.ltb_lt. vm_compute. reflexivity. Qed.

(** The bookings of a file are no more than its lines. *)
Lemma parse_booking_data_length text bs :
  parse_booking_data text = inr bs → (length bs ≤ length (readlines text))%nat.
Proof.
  unfold parse_booking_data. intros (new & -> & Hnew)%parse_lines_inr.
  apply Forall2_length in Hnew. simpl. rewrite <- Hnew.
  etrans; [apply length_filter|]. rewrite length_drop. lia.
Qed.

(** The report of the bookings of a file that was read is printed. *)
Lemma render_sequenced env input_file text simple bs bs' :
  read_file env input_file = inr text →
  parse_booking_data text = inr bs →
  sequence_fresh bs = Some bs' → ∃ txt, render simple bs' = inr txt.
Proof.
  intros [_ Hlines]%read_file_inr Hparse Hfresh.
  pose proof (parse_booking_data_printable_aux _ _ Hparse) as Hpr.
  apply (render_fresh simple bs bs' Hpr Hfresh).
  pose proof (parse_booking_data_length _ _ Hparse).
  pose proof sys_maxsize_printable. lia.
Qed.

(** The runs of [process_file], case by case. *)
Lemma process_file_cases env input_file output_file simple :
  (∃ ioe, read_file env input_file = inl ioe ∧
          process_file env input_file output_file simple = Some (inl (Raised_io ioe))) ∨
  (∃ text ve, read_file env input_file = inr text ∧
              parse_booking_data text = inl ve ∧
              process_file env input_file output_file simple
                = Some (inl (Raised_ValueError ve))) ∨
  (∃ text bs bs' txt,
     read_file env input_file = inr text ∧
     parse_booking_data text = inr bs ∧
     sequence_fresh bs = Some bs' ∧
     render simple bs' = inr txt ∧
     ((truthy output_file = None ∧
       process_file env input_file output_file simple
         = Some (inr (mkProcessed txt None))) ∨
      (∃ path, truthy output_file = Some path ∧
               write_file env path txt = None ∧
               process_file env input_file output_file simple
                 = Some (inr (mkProcessed txt (Some path)))) ∨
      (∃ path ioe, truthy output_file = Some path ∧
                   write_file env path txt = Some ioe ∧
                   process_file env input_file output_file simple
                     = Some (inl (Raised_io ioe))))).
Proof.
  unfold process_file.
  destruct (read_file env input_file) as [ioe|text] eqn:Hread; [left; eauto|].
  destruct (parse_booking_data text) as [ve|bs] eqn:Hparse; [right; left; eauto|].
  right. right.
  destruct (sequence_fresh_spec bs) as (bs' & Hfresh & _).
  destruct (render_sequenced env input_file text simple bs bs' Hread Hparse Hfresh)
    as [txt Htxt].
  exists text, bs, bs', txt. rewrite Hfresh. simpl.
  unfold render in Htxt. rewrite Htxt. repeat (split; [done|]).
  destruct (truthy output_file) as [path|]; [|by left].
  right. destruct (write_file env path txt) as [ioe|] eqn:Hw; [right|left]; eauto.
Qed.

(** When [process_file] raises, and what. *)
Lemma process_file_inl env input_file output_file simple e :
  process_file env input_file output_file simple = Some (inl e) ↔
  (∃ ioe, read_file env input_file = inl ioe ∧ e = Raised_io ioe) ∨
  (∃ text ve, read_file env input_file = inr text ∧
              parse_booking_data text = inl ve ∧ e = Raised_ValueError ve) ∨
  (∃ text bs bs' txt path ioe,
     read_file env input_file = inr text ∧
     parse_booking_data text = inr bs ∧
     sequence_fresh bs = Some bs' ∧
     render simple bs' = inr txt ∧
     truthy output_file = Some path ∧
     write_file env path txt = Some ioe ∧ e = Raised_io ioe).
Proof.
  destruct (process_file_cases env input_file output_file simple)
    as [(ioe & Hread & Hpf)|[(text & ve & Hread & Hparse & Hpf)|
        (text & bs & bs' & txt & Hread & Hparse & Hfresh & Htxt &
         [[Hout Hpf]|[(path & Hout & Hw & Hpf)|(path & ioe & Hout & Hw & Hpf)]])]];
    rewrite Hpf; split.
  - intros [= <-]. left. eauto.
  - intros [(? & ? & ->)|[(? & ? & ? & _)|(? & ? & ? & ? & ? & ? & ? & _)]];
      congruence.
  - intros [= <-]. right. left. eauto.
  - intros [(? & ? & _)|[(? & ? & ? & ? & ->)|(? & ? & ? & ? & ? & ? & ? & ? & _)]];
      congruence.
  - done.
  - intros [(? & ? & _)|[(? & ? & ? & ? & _)|(? & ? & ? & ? & ? & ? & ? & ? & ? & ? & ? & _)]];
      congruence.
  - done.
  - intros [(? & ? & _)|[(? & ? & ? & ? & _)|
            (t2 & b2 & b2' & x2 & p2 & i2 & H1 & H2 & H3 & H4 & H5 & H6 & _)]];
      [congruence..|].
    assert (t2 = text) as -> by congruence.
    assert (b2 = bs) as -> by congruence.
    assert (b2' = bs') as -> by congruence.
    assert (x2 = txt) as -> by congruence.
    assert (p2 = path) as -> by congruence. congruence.
  - intros [= <-]. right. right. exists text, bs, bs', txt, path, ioe. done.
  - intros [(? & ? & _)|[(? & ? & ? & ? & _)|
            (t2 & b2 & b2' & x2 & p2 & i2 & H1 & H2 & H3 & H4 & H5 & H6 & ->)]];
      [congruence..|].
    assert (t2 = text) as -> by congruence.
    assert (b2 = bs) as -> by congruence.
    assert (b2' = bs') as -> by congruence.
    assert (x2 = txt) as -> by congruence.
    assert (p2 = path) as -> by congruence. congruence.
Qed.

Lemma process_file_is_Some env input_file output_file simple :
  is_Some (process_file env input_file output_file simple).
Proof.
  destruct (process_file_cases env input_file output_file simple)
    as [(ioe & Hread & Hpf)|[(text & ve & Hread & Hparse & Hpf)|
        (text & bs & bs' & txt & Hread & Hparse & Hfresh & Htxt &
         [[Hout Hpf]|[(path & Hout & Hw & Hpf)|(path & ioe & Hout & Hw & Hpf)]])]];
    rewrite Hpf; by eexists.
Qed.

(** X20. [process_file] always ends, and never with a [KeyError]: the
    sequencer has numbered every booking before a report reads the
    numbers. It raises in three cases only: the input file cannot be read,
    the ingestion raises, or the output file, asked for by a non-empty
    name, cannot be written; the exception is then the one of that step. *)
Theorem process_file_raises
    (env : Env) (input_file : list ascii) (output_file : option (list ascii))
    (simple : bool) :
  is_Some (process_file env input_file output_file simple) ∧
  (∀ ke, process_file env input_file output_file simple
           ≠ Some (inl (Raised_KeyError ke))) ∧
  (∀ e, process_file env input_file output_file simple = Some (inl e) ↔
     (∃ ioe, read_file env input_file = inl ioe ∧ e = Raised_io ioe) ∨
     (∃ text ve, read_file env input_file = inr text ∧
                 parse_booking_data text = inl ve ∧ e = Raised_ValueError ve) ∨
     (∃ text bs bs' txt path ioe,
        read_file env input_file = inr text ∧
        parse_booking_data text = inr bs ∧
        sequence_fresh bs = Some bs' ∧
        render simple bs' = inr txt ∧
        truthy output_file = Some path ∧
        write_file env path txt = Some ioe ∧ e = Raised_io ioe)).
Proof.
  split; [apply process_file_is_Some|]. split; [|intros e; apply process_file_inl].
  intros ke Hke. apply process_file_inl in Hke
    as [(? & _ & ?)|[(? & ? & _ & _ & ?)|
        (? & ? & ? & ? & ? & ? & _ & _ & _ & _ & _ & _ & ?)]]; done.
Qed.

(** ** The command line *)

Lemma process_file_inr env input_file output_file simple p :
  process_file env input_file output_file simple = Some (inr p) →
  saved p = truthy output_file ∧
  ∀ path, truthy output_file = Some path → write_file env path (report p) = None.
Proof.
  intros Hp.
  destruct (process_file_cases env input_file output_file simple)
    as [(ioe & Hread & Hpf)|[(text & ve & Hread & Hparse & Hpf)|
        (text & bs & bs' & txt & Hread & Hparse & Hfresh & Htxt &
         [[Hout Hpf]|[(path & Hout & Hw & Hpf)|(path & ioe & Hout & Hw & Hpf)]])]];
    rewrite Hpf in Hp; try done; injection Hp as <-; cbn [saved report];
    rewrite Hout; (split; [done|]); intros path' Hpath; congruence.
Qed.

Lemma print_spec env line out :
  print env line out =
  match print_raises env line with
  | Some e => inl e
  | None => inr (out ++ [line])
  end.
Proof. done. Qed.

Lemma handler_spec env input_file e out file :
  handler env input_file e out file
  = mkExit (out ++ printed_if env (message input_file e)) 1 file.
Proof.
  unfold handler, printed_if. fold (message input_file e). rewrite print_spec.
  destruct (print_raises env (message input_file e)); [|done].
  by rewrite app_nil_r.
Qed.

(** The runs of [main], case by case. *)
Lemma main_usage env argv :
  (length argv < 2)%nat →
  main env argv =
  Some (mkExit
          match print_raises env Print_usage with
          | Some _ => []
          | None => Print_usage :: printed_if env Print_example
          end 1 None).
Proof.
  intros Hlen. unfold main. rewrite (proj2 (Nat.ltb_lt _ _) Hlen).
  rewrite !print_spec. unfold printed_if.
  destruct (print_raises env Print_usage); [done|]. rewrite print_spec.
  by destruct (print_raises env Print_example).
Qed.

Lemma main_raised env argv e :
  (2 ≤ length argv)%nat →
  main_process env argv = Some (inl e) →
  main env argv =
  Some (mkExit (printed_if env (message (argv !!! 1%nat) e)) 1 None).
Proof.
  intros Hlen Hp. unfold main. rewrite (proj2 (Nat.ltb_ge _ _) Hlen).
  fold (output_file_of argv). fold (main_process env argv). rewrite Hp.
  cbn [mbind option_bind]. by rewrite handler_spec.
Qed.

Lemma main_returned env argv p :
  (2 ≤ length argv)%nat →
  main_process env argv = Some (inr p) →
  main env argv =
  Some
    match print_raises env (Print_result (report p)) with
    | Some e =>
        mkExit (printed_if env (Print_error (Raised_print e))) 1
          ((λ path, (path, report p)) <$> saved p)
    | None =>
        match truthy (output_file_of argv) with
        | None =>
            mkExit [Print_result (report p)] 0
              ((λ path, (path, report p)) <$> saved p)
        | Some path =>
            match print_raises env (Print_saved path) with
            | Some e =>
                mkExit (Print_result (report p) ::
                        printed_if env (Print_error (Raised_print e))) 1
                  ((λ path, (path, report p)) <$> saved p)
            | None =>
                mkExit [Print_result (report p); Print_saved path] 0
                  ((λ path, (path, report p)) <$> saved p)
            end
        end
    end.
Proof.
  intros Hlen Hp. unfold main. rewrite (proj2 (Nat.ltb_ge _ _) Hlen).
  fold (output_file_of argv). fold (main_process env argv). rewrite Hp.
  cbn [mbind option_bind]. rewrite print_spec.
  destruct (print_raises env (Print_result (report p))) as [e|];
    [by rewrite handler_spec|].
  destruct (truthy (output_file_of argv)) as [path|]; [|done].
  rewrite print_spec.
  destruct (print_raises env (Print_saved path)) as [e|];
    [by rewrite handler_spec|done].
Qed.


Lemma printed_if_elem env line x : x ∈ printed_if env line → x = line.
Proof.
  unfold printed_if. destruct (print_raises env line).
  - by intros ?%not_elem_of_nil.
  - by intros [->|?%not_elem_of_nil]%elem_of_cons.
Qed.

Lemma message_not_result input_file e txt : message input_file e ≠ Print_result txt.
Proof. destruct e as [| |[]|]; done. Qed.

(** X22. [main] always ends, with status 0 or 1. The status is 0 exactly
    when there are at least two arguments, [process_file] returns, and the
    calls of [print] of the [try] block succeed: the one of the report
    and, when an output file was asked for, the one of the line that names
    it; the output is then these lines, and the file written is the one
    [process_file] has written. When [process_file] raises, no report is
    printed and no file is written. With fewer than two arguments the
    status is 1, no file is read or written, and the output is the two
    lines of the usage, or the first of them, or nothing, when a print
    raises. *)
Theorem main_status (env : Env) (argv : list (list ascii)) :
  ∃ o, main env argv = Some o ∧
    (status o = 0 ∨ status o = 1) ∧
    (status o = 0 ↔
       (2 ≤ length argv)%nat ∧
       ∃ p, main_process env argv = Some (inr p) ∧
            print_raises env (Print_result (report p)) = None ∧
            ∀ path, truthy (output_file_of argv) = Some path →
                    print_raises env (Print_saved path) = None) ∧
    (status o = 0 →
       ∃ p, main_process env argv = Some (inr p) ∧
            stdout o = Print_result (report p) ::
                       match truthy (output_file_of argv) with
                       | Some path => [Print_saved path]
                       | None => []
                       end ∧
            file_saved o = (λ path, (path, report p)) <$> truthy (output_file_of argv)) ∧
    ((∃ e, main_process env argv = Some (inl e)) →
       file_saved o = None ∧ ∀ txt, Print_result txt ∉ stdout o) ∧
    ((length argv < 2)%nat →
       status o = 1 ∧ file_saved o = None ∧
       (stdout o = [] ∨ stdout o = [Print_usage] ∨
        stdout o = [Print_usage; Print_example]) ∧
       (print_raises env Print_usage = None →
        print_raises env Print_example = None →
        stdout o = [Print_usage; Print_example]) ∧
       ∀ env', print_raises env' = print_raises env → main env' argv = Some o).
Proof.
  destruct (Nat.lt_ge_cases (length argv) 2) as [Hlen|Hlen].
  - eexists. split; [by apply main_usage|]. cbn [status stdout file_saved].
    split; [by right|]. split; [split; [done | lia]|]. split; [done|].
    split.
    + intros _. split; [done|]. intros txt.
      destruct (print_raises env Print_usage); [apply not_elem_of_nil|].
      intros [?|?%printed_if_elem]%elem_of_cons; done.
    + intros _. split; [done|]. split; [done|]. split; [|split].
      * unfold printed_if. destruct (print_raises env Print_usage); [by left|].
        destruct (print_raises env Print_example); [right; by left | right; by right].
      * unfold printed_if. by intros -> ->.
      * intros env' Heq. rewrite (main_usage env' argv Hlen).
        unfold printed_if. by rewrite Heq.
  - destruct (process_file_is_Some env (argv !!! 1%nat) (output_file_of argv)
                (bool_decide (str:"--simple" ∈ argv))) as [[e|p] Hp];
      fold (main_process env argv) in Hp.
    + eexists. split; [by apply main_raised|]. cbn [status stdout file_saved].
      split; [by right|]. split; [split; [done|]|].
      { intros (_ & p & Hp' & _). congruence. }
      split; [done|]. split; [|lia].
      intros _. split; [done|]. intros txt Hin%printed_if_elem.
      by apply (message_not_result (argv !!! 1%nat) e txt).
    + destruct (process_file_inr _ _ _ _ _ Hp) as [Hsaved _].
      eexists. split; [by apply main_returned|].
      split; [|split; [|split; [|split; [|lia]]]].
      * destruct (print_raises env (Print_result (report p))); [by right|].
        destruct (truthy (output_file_of argv)); [|by left].
        destruct (print_raises env (Print_saved l)); [by right | by left].
      * split.
        -- intros Hst. split; [done|]. exists p. split; [done|].
           destruct (print_raises env (Print_result (report p))); [done|].
           split; [done|]. intros path Hpath. rewrite Hpath in Hst.
           by destruct (print_raises env (Print_saved path)).
        -- intros (_ & p' & Hp' & Hr & Hs).
           assert (p' = p) as -> by congruence. rewrite Hr.
           destruct (truthy (output_file_of argv)) as [path|]; [|done].
           by rewrite (Hs path eq_refl).
      * intros Hst. exists p. split; [done|]. rewrite Hsaved in Hst |- *.
        destruct (print_raises env (Print_result (report p))); [done|].
        destruct (truthy (output_file_of argv)) as [path|]; [|done].
        by destruct (print_raises env (Print_saved path)).
      * intros [e He]. congruence.
Qed.



(** X24. The message that a file was not found always names the input
    file, the second element of [sys.argv]. [main] prints it exactly when
    [process_file] raises [FileNotFoundError] and the print of the message
    succeeds; it is then the only line printed, and the status is 1.
    [process_file] raises [FileNotFoundError] exactly when the input file
    is missing, or when the output file, asked for by a non-empty name,
    cannot be created for that reason: the message names the input file in
    that case too. *)
Theorem main_not_found
    (env : Env) (argv : list (list ascii)) (o : exit_state) (f : list ascii) :
  main env argv = Some o →
  (Print_not_found f ∈ stdout o ↔
     argv !! 1%nat = Some f ∧
     main_process env argv = Some (inl (Raised_io FileNotFoundError)) ∧
     print_raises env (Print_not_found f) = None) ∧
  (Print_not_found f ∈ stdout o →
     stdout o = [Print_not_found f] ∧ status o = 1 ∧ file_saved o = None) ∧
  (main_process env argv = Some (inl (Raised_io FileNotFoundError)) ↔
     read_file env (argv !!! 1%nat) = inl FileNotFoundError ∨
     ∃ text bs bs' txt path,
       read_file env (argv !!! 1%nat) = inr text ∧
       parse_booking_data text = inr bs ∧
       sequence_fresh bs = Some bs' ∧
       render (bool_decide (str:"--simple" ∈ argv)) bs' = inr txt ∧
       truthy (output_file_of argv) = Some path ∧
       write_file env path txt = Some FileNotFoundError).
Proof.
  intros Hmain.
  assert (Hcause :
    main_process env argv = Some (inl (Raised_io FileNotFoundError)) ↔
    read_file env (argv !!! 1%nat) = inl FileNotFoundError ∨
    ∃ text bs bs' txt path,
      read_file env (argv !!! 1%nat) = inr text ∧
      parse_booking_data text = inr bs ∧
      sequence_fresh bs = Some bs' ∧
      render (bool_decide (str:"--simple" ∈ argv)) bs' = inr txt ∧
      truthy (output_file_of argv) = Some path ∧
      write_file env path txt = Some FileNotFoundError).
  { unfold main_process. rewrite process_file_inl. split.
    - intros [(ioe & Hr & [= <-])|[(? & ? & _ & _ & ?)|
              (text & bs & bs' & txt & path & ioe & ? & ? & ? & ? & ? & ? & [= <-])]];
        [by left|done|].
      right. exists text, bs, bs', txt, path. done.
    - intros [Hr|(text & bs & bs' & txt & path & ? & ? & ? & ? & ? & ?)].
      + left. eauto.
      + do 2 right. exists text, bs, bs', txt, path, FileNotFoundError. done. }
  assert (Hin : Print_not_found f ∈ stdout o →
            argv !! 1%nat = Some f ∧
            main_process env argv = Some (inl (Raised_io FileNotFoundError)) ∧
            print_raises env (Print_not_found f) = None ∧
            stdout o = [Print_not_found f] ∧ status o = 1 ∧ file_saved o = None).
  { destruct (Nat.lt_ge_cases (length argv) 2) as [Hlen|Hlen].
    { rewrite (main_usage env argv Hlen) in Hmain. injection Hmain as <-.
      cbn [stdout]. destruct (print_raises env Print_usage);
        [by intros ?%not_elem_of_nil|].
      intros [?|?%printed_if_elem]%elem_of_cons; done. }
    assert (Harg : argv !! 1%nat = Some (argv !!! 1%nat)).
    { destruct (lookup_lt_is_Some_2 argv 1 ltac:(lia)) as [x Hx].
      by rewrite (list_lookup_total_correct _ _ _ Hx). }
    destruct (process_file_is_Some env (argv !!! 1%nat) (output_file_of argv)
                (bool_decide (str:"--simple" ∈ argv))) as [[e|p] Hp];
      fold (main_process env argv) in Hp.
    - rewrite (main_raised env argv e Hlen Hp) in Hmain. injection Hmain as <-.
      cbn [stdout status file_saved]. intros Hel.
      pose proof (printed_if_elem _ _ _ Hel) as Hmsg.
      assert (e = Raised_io FileNotFoundError ∧ f = argv !!! 1%nat) as [-> ->].
      { destruct e as [| |[]|]; cbn [message] in Hmsg; try done.
        by injection Hmsg as ->. }
      cbn [message] in *. unfold printed_if in *.
      destruct (print_raises env (Print_not_found (argv !!! 1%nat)));
        [by apply not_elem_of_nil in Hel|]. done.
    - rewrite (main_returned env argv p Hlen Hp) in Hmain.
      destruct (print_raises env (Print_result (report p))).
      { injection Hmain as <-. cbn [stdout]. by intros ?%printed_if_elem. }
      destruct (truthy (output_file_of argv)) as [path|].
      + destruct (print_raises env (Print_saved path)); injection Hmain as <-;
          cbn [stdout].
        * intros [?|?%printed_if_elem]%elem_of_cons; done.
        * intros [?|[?|?%not_elem_of_nil]%elem_of_cons]%elem_of_cons; done.
      + injection Hmain as <-. cbn [stdout].
        intros [?|?%not_elem_of_nil]%elem_of_cons; done. }
  split; [|split; [|done]].
  - split; [intros H; by destruct (Hin H) as (? & ? & ? & _)|].
    intros (Harg & Hp & Hpr).
    assert (Hlen : (2 ≤ length argv)%nat).
    { apply lookup_lt_Some in Harg. lia. }
    rewrite (main_raised env argv _ Hlen Hp) in Hmain. injection Hmain as <-.
    cbn [stdout message]. rewrite (list_lookup_total_correct _ _ _ Harg).
    unfold printed_if. rewrite Hpr. left.
  - intros H. by destruct (Hin H) as (_ & _ & _ & ? & ? & ?).
Qed.

Lemma main_not_found_witness :
  Print_not_found str:"missing.csv"
    ∈ stdout (mkExit [Print_not_found str:"missing.csv"] 1 None) ↔
  [str:"prog"; str:"missing.csv"] !! 1%nat = Some str:"missing.csv" ∧
  main_process (mkEnv (λ _, inl FileNotFoundError) (λ _ _, None) (λ _, None))
    [str:"prog"; str:"missing.csv"] = Some (inl (Raised_io FileNotFoundError)) ∧
  print_raises (mkEnv (λ _, inl FileNotFoundError) (λ _ _, None) (λ _, None))
    (Print_not_found str:"missing.csv") = None.
Proof.
  destruct (main_not_found
              (mkEnv (λ _, inl FileNotFoundError) (λ _ _, None) (λ _, None))
              [str:"prog"; str:"missing.csv"]
              (mkExit [Print_not_found str:"missing.csv"] 1 None)
              str:"missing.csv")
    as (Hiff & _ & _).
  - reflexivity.
  - exact Hiff.
Defined.

(** ** The lines of the detailed report *)

Section detailed_lines.
Import Str Fmt.

Lemma readlines_lines text :
  Forall (λ line, ∃ body, (LF ∉ body) ∧ (line = body ++ [LF] ∨ line = body))
    (readlines text).
Proof.
  induction text as [|c text IH]; [constructor|]. simpl.
  destruct (Ascii.eqb_spec c LF) as [->|Hc].
  - constructor; [|done]. exists []. split; [apply not_elem_of_nil | by left].
  - destruct (readlines text) as [|line lines].
    + repeat constructor. exists [c]. split; [|by right].
      by intros [?|?%not_elem_of_nil]%elem_of_cons.
    + apply Forall_cons in IH as [(body & Hbody & Hline) IH].
      constructor; [|done]. exists (c :: body). split.
      * by intros [?|?]%elem_of_cons.
      * destruct Hline as [->| ->]; [by left | by right].
Qed.

Lemma strip_line_no_LF line :
  (∃ body, (LF ∉ body) ∧ (line = body ++ [LF] ∨ line = body)) → LF ∉ strip line.
Proof.
  intros (body & Hbody & [->| ->]) Hin.
  - change (body ++ [LF]) with ([] ++ body ++ [LF]) in Hin.
    rewrite (strip_spaces_app [] body [LF]) in Hin by done.
    by apply strip_elem in Hin.
  - by apply strip_elem in Hin.
Qed.

Lemma split_elem_subset sep s w c : w ∈ split sep s → c ∈ w → c ∈ s.
Proof.
  revert w. induction s as [|c' s IH]; intros w; simpl.
  - intros [->|?%not_elem_of_nil]%elem_of_cons; [|done]. by intros ?%not_elem_of_nil.
  - destruct (Ascii.eqb c' sep).
    + intros [->|Hw]%elem_of_cons; [by intros ?%not_elem_of_nil|].
      intros Hc. right. by apply (IH w).
    + destruct (split sep s) as [|w' ws].
      * intros [->|?%not_elem_of_nil]%elem_of_cons; [|done].
        intros [->|?%not_elem_of_nil]%elem_of_cons; [by left | done].
      * intros [->|Hw]%elem_of_cons.
        -- intros [->|Hc]%elem_of_cons; [by left|]. right. apply (IH w'); [by left|done].
        -- intros Hc. right. apply (IH w); [by right | done].
Qed.

Lemma fields_no_LF raw :
  LF ∉ strip raw → Forall (λ s, LF ∉ s) (fields raw).
Proof.
  intros Hraw. unfold fields. rewrite Forall_fmap, Forall_forall.
  intros w Hw Hin. simpl in Hin. apply strip_elem in Hin.
  by apply (split_elem_subset _ _ _ _ Hw) in Hin.
Qed.

Lemma join_elem sep l c : c ∈ join sep l → c = sep ∨ ∃ s, s ∈ l ∧ c ∈ s.
Proof.
  induction l as [|s l IH]; [by intros ?%not_elem_of_nil|].
  destruct l as [|s' l].
  - simpl. intros Hc. right. exists s. split; [by left | done].
  - change (join sep (s :: s' :: l)) with (s ++ sep :: join sep (s' :: l)).
    rewrite elem_of_app, elem_of_cons. intros [Hc|[->|Hc]].
    + right. exists s. split; [by left | done].
    + by left.
    + destruct (IH Hc) as [->|(s0 & Hs0 & Hc0)]; [by left|].
      right. exists s0. split; [by right | done].
Qed.

Lemma detailed_row_no_LF k b :
  Forall (λ s, LF ∉ s) (seats b) → LF ∉ detailed_row k b.
Proof.
  intros Hseats. unfold detailed_row.
  assert (Hjoin : LF ∉ join "," (seats b)).
  { intros [?|(s & Hs & Hc)]%join_elem; [done|].
    rewrite Forall_forall in Hseats. by apply (Hseats s Hs). }
  rewrite elem_of_app, elem_of_cons, elem_of_app, elem_of_cons, elem_of_app,
    elem_of_cons.
  intros [H|[?|[H|[?|[H|[?|H]]]]]]; try done.
  - by apply (ljust_no_LF 6 _ (of_Z_no_LF k)) in H.
  - by apply (ljust_no_LF 12 _ (of_Z_no_LF (booking_id b))) in H.
  - by apply (ljust_no_LF 20 _ Hjoin) in H.
  - by apply of_Z_no_LF in H.
Qed.

Lemma display_sequence_lines_aux (bs : list Booking) (text : list ascii) :
  display_sequence bs = inr text →
  Forall (λ b, Forall (λ s, LF ∉ s) (seats b)) bs →
  ∃ rows,
    split LF text = detailed_header :: replicate 60 "-"%char :: rows ∧
    length (split LF text) = (length bs + 2)%nat ∧
    Forall2 (λ b row, ∃ k, sequence b = Some k ∧ row = detailed_row k b) bs rows.
Proof.
  rewrite display_sequence_rows.
  destruct (rows_by detailed_line bs) as [e|rows] eqn:Hrows; [done|].
  intros Heq Hseats. apply (inj inr) in Heq. subst text.
  apply rows_detailed_inr in Hrows. exists rows.
  assert (Hsplit : split LF
            (join LF (detailed_header :: replicate 60 "-"%char :: rows))
          = detailed_header :: replicate 60 "-"%char :: rows).
  { apply split_join; [done|]. constructor; [|constructor].
    - apply (bool_decide_unpack _). vm_compute. exact I.
    - apply (bool_decide_unpack _). vm_compute. exact I.
    - clear -Hrows Hseats.
      induction Hrows as [|b r bs rows (k & _ & ->) _ IH]; [constructor|].
      apply Forall_cons in Hseats as [Hb Hseats].
      constructor; [by apply detailed_row_no_LF | by apply IH]. }
  rewrite Hsplit. split; [done|]. split; [|done].
  simpl. rewrite <- (Forall2_length _ _ _ Hrows). lia.
Qed.

Lemma parse_booking_data_seats_no_LF text bs :
  parse_booking_data text = inr bs →
  Forall (λ b, Forall (λ s, LF ∉ s) (seats b)) bs.
Proof.
  intros H%parse_lines_invariant. eapply Forall_impl; [exact H|].
  intros b (raw & Hraw & _ & (_ & -> & _ & _)%record_of_inr).
  assert (Hline : LF ∉ strip raw).
  { apply strip_line_no_LF.
    pose proof (readlines_lines text) as Hl. rewrite Forall_forall in Hl.
    apply Hl. unfold data_lines in Hraw.
    destruct (readlines text) as [|h ls]; [done|]. by right. }
  pose proof (fields_no_LF raw Hline) as Hf.
  destruct (fields raw) as [|f fs]; [constructor|].
  by apply Forall_cons in Hf as [_ ?].
Qed.

End detailed_lines.

(** X25. The lines of the detailed report: when no seat label holds a
    newline, the text cut at the newlines is the header, the rule of 60
    dashes, then one row per booking, in the order of the list, N + 2
    lines in all. *)
Theorem display_sequence_lines (bs : list Booking) (text : list ascii) :
  display_sequence bs = inr text →
  Forall (λ b, Forall (λ s, LF ∉ s) (seats b)) bs →
  ∃ rows,
    Str.split LF text = detailed_header :: replicate 60 "-"%char :: rows ∧
    length (Str.split LF text) = (length bs + 2)%nat ∧
    Forall2 (λ b row, ∃ k, sequence b = Some k ∧ row = detailed_row k b) bs rows.
Proof. apply display_sequence_lines_aux. Qed.

Lemma display_sequence_lines_witness :
  ∃ rows,
    Str.split LF
      (str:"Seq    Booking_ID   Seats                Max_Distance" ++ [LF] ++
       str:"------------------------------------------------------------" ++ [LF] ++
       str:"1      120          A20,C2               20")
    = detailed_header :: replicate 60 "-"%char :: rows ∧
    length rows = 1%nat.
Proof.
  destruct (display_sequence_lines
              [mkBooking 120 [str:"A20"; str:"C2"] 20 (Some 1)]
              (str:"Seq    Booking_ID   Seats                Max_Distance" ++ [LF] ++
               str:"------------------------------------------------------------" ++ [LF] ++
               str:"1      120          A20,C2               20") eq_refl)
    as (rows & Hsplit & _ & Hrows).
  - repeat constructor; apply (bool_decide_unpack _); vm_compute; exact I.
  - exists rows. split; [exact Hsplit|].
    symmetry. exact (Forall2_length _ _ _ Hrows).
Defined.

(** X21. From the file to the report: when [process_file] returns, the
    report, simple or detailed, has one row for each record line of the
    input file, N + 2 lines in all; and a file has been written exactly
    when the output name given is a non-empty string. *)
Theorem process_file_lines
    (env : Env) (input_file : list ascii) (output_file : option (list ascii))
    (simple : bool) (text : list ascii) (p : processed) :
  read_file env input_file = inr text →
  process_file env input_file output_file simple = Some (inr p) →
  length (Str.split LF (report p)) =
    (length (filter (λ raw, is_record raw = true) (data_lines text)) + 2)%nat ∧
  saved p = truthy output_file.
Proof.
  intros Hread Hp.
  destruct (process_file_cases env input_file output_file simple)
    as [(ioe & Hread' & Hpf)|[(text' & ve & Hread' & Hparse & Hpf)|
        (text' & bs & bs' & txt & Hread' & Hparse & Hfresh & Htxt & Hcases)]];
    [congruence..|].
  assert (text' = text) as -> by congruence.
  destruct (sequence_fresh_spec bs) as (bs2 & Hbs2 & Hperm & _).
  assert (bs2 = bs') as -> by congruence.
  assert (Hlen : length (Str.split LF txt) =
            (length (filter (λ raw, is_record raw = true) (data_lines text)) + 2)%nat).
  { assert (Hn : length bs' =
              length (filter (λ raw, is_record raw = true) (data_lines text))).
    { pose proof (Permutation_length Hperm) as Hl. rewrite !length_fmap in Hl.
      unfold parse_booking_data in Hparse. fold (data_lines text) in Hparse.
      apply parse_lines_inr in Hparse as (new & -> & Hnew).
      apply Forall2_length in Hnew. simpl in Hl. lia. }
    rewrite <- Hn. unfold render in Htxt. destruct simple.
    - by destruct (display_simple_sequence_lines_aux bs' txt Htxt) as (rows & _ & -> & _).
    - destruct (display_sequence_lines_aux bs' txt Htxt) as (rows & _ & -> & _); [|done].
      pose proof (parse_booking_data_seats_no_LF _ _ Hparse) as Hseats.
      assert (Hdata : Forall (λ d : Z * list (list ascii) * Z,
                                Forall (λ s, LF ∉ s) d.1.2) (booking_data <$> bs')).
      { rewrite Hperm, Forall_fmap. eapply Forall_impl; [exact Hseats|]. done. }
      rewrite Forall_fmap in Hdata. eapply Forall_impl; [exact Hdata|]. done. }
  destruct Hcases as [[Hout Hpf]|[(path & Hout & Hw & Hpf)|(path & ioe & Hout & Hw & Hpf)]];
    rewrite Hpf in Hp; [| |done]; injection Hp as <-; simpl; by rewrite Hout.
Qed.

Lemma process_file_lines_witness :
  length (Str.split LF
            (str:"Seq    Booking_ID" ++ [LF] ++ str:"--------------------" ++ [LF] ++
             str:"1      120" ++ [LF] ++ str:"2      101")) = 4%nat.
Proof.
  refine (proj1 (process_file_lines
            (mkEnv (λ _, inr (written ["Booking_id,Seats"; "101,A1"; ""; "120,A20"]))
                   (λ _ _, None) (λ _, None))
            str:"bookings.csv" None true
            (written ["Booking_id,Seats"; "101,A1"; ""; "120,A20"])
            (mkProcessed
               (str:"Seq    Booking_ID" ++ [LF] ++ str:"--------------------" ++ [LF] ++
                str:"1      120" ++ [LF] ++ str:"2      101") None) _ _)).
  - reflexivity.
  - vm_compute. reflexivity.
Defined.
